(** * The inspector proxy server (server/src/index.ts), embedded in Rocq

    The development follows the file top-down: JavaScript strings and the
    built-ins the server relies on, the [LineDecoder] class, the header
    allow-lists of [createTransport], the environment of the spawned
    process, the port allocator, and the session registry with the
    request handlers that populate it. *)

From Stdlib Require Import ZArith NArith Ascii String List Lia.
From stdpp Require Import base option list gmap.

Set Warnings "-register-all".

Local Open Scope N_scope.

(** ** JavaScript strings

    A JavaScript string is a sequence of UTF-16 code units. *)

Module JS.

Definition jsString : Type := list N.

(** A literal of 7-bit characters. *)
Definition js (s : string) : jsString :=
  map N_of_ascii (list_ascii_of_string s).

(** The same, with every apostrophe standing for a double quote, so that
    JSON text can be written down legibly. *)
Definition jq (s : string) : jsString :=
  map (fun c => if c =? 39 then 34 else c) (js s).

Definition LF : N := 10.

(** [s.split('\n')]: the pieces between the line feeds; never empty. *)
Fixpoint split_lf (s : jsString) : list jsString :=
  match s with
  | [] => [[]]
  | c :: s' =>
      if c =? LF then [] :: split_lf s'
      else match split_lf s' with
           | l :: ls => (c :: l) :: ls
           | [] => [[c]]
           end
  end.

(** WhiteSpace and LineTerminator code units of ECMA-262, the ones
    [String.prototype.trim] strips. *)
Definition is_white_space (c : N) : bool :=
  (c =? 9) || (c =? 10) || (c =? 11) || (c =? 12) || (c =? 13) || (c =? 32)
  || (c =? 160) || (c =? 5760) || ((8192 <=? c) && (c <=? 8202))
  || (c =? 8232) || (c =? 8233) || (c =? 8239) || (c =? 8287)
  || (c =? 12288) || (c =? 65279).

Fixpoint trim_start (s : jsString) : jsString :=
  match s with
  | c :: s' => if is_white_space c then trim_start s' else s
  | [] => []
  end.

Definition trim (s : jsString) : jsString :=
  rev (trim_start (rev (trim_start s))).

(** The text made of complete [lines], each followed by a line feed, and
    of an unterminated [rest]. *)
Definition join_lines (lines : list jsString) (rest : jsString) : jsString :=
  flat_map (fun l => l ++ [LF]) lines ++ rest.

(** [s === ""] *)
Definition is_empty (s : jsString) : bool :=
  match s with [] => true | _ => false end.

End JS.

Import JS.

(** ** JSON.parse

    The values [JSON.parse] returns and a reader for JSON text. A number
    is kept as the decimal its literal denotes, [mantissa * 10 ^ exponent]
    with no trailing zero in the mantissa; JavaScript rounds it to a
    double, which nothing below depends on. *)

Module Json.

Inductive json : Type :=
| JNull
| JBool (b : bool)
| JNumber (mantissa exponent : Z)
| JString (s : jsString)
| JArray (elements : list json)
| JObject (members : list (jsString * json)).

(** JSON white space is narrower than JavaScript's. *)
Definition is_json_ws (c : N) : bool :=
  (c =? 9) || (c =? 10) || (c =? 13) || (c =? 32).

Fixpoint skip_ws (s : jsString) : jsString :=
  match s with
  | c :: s' => if is_json_ws c then skip_ws s' else s
  | [] => []
  end.

Definition is_digit (c : N) : bool := (48 <=? c) && (c <=? 57).

Definition hex_value (c : N) : option N :=
  if is_digit c then Some (c - 48)
  else if (97 <=? c) && (c <=? 102) then Some (c - 87)
  else if (65 <=? c) && (c <=? 70) then Some (c - 55)
  else None.

(** The characters of a string literal after its opening quote, up to
    the closing quote; the text after it is returned too. *)
Fixpoint read_string (s : jsString) (acc : jsString)
  : option (jsString * jsString) :=
  match s with
  | [] => None
  | c :: r =>
      if c =? 34 then Some (rev acc, r)
      else if c =? 92 then
        match r with
        | [] => None
        | e :: r1 =>
            if e =? 117 then
              match r1 with
              | a :: b :: c :: d :: r2 =>
                  match hex_value a, hex_value b, hex_value c, hex_value d with
                  | Some a, Some b, Some c, Some d =>
                      read_string r2 (((a * 16 + b) * 16 + c) * 16 + d :: acc)
                  | _, _, _, _ => None
                  end
              | _ => None
              end
            else
              let unescaped :=
                if e =? 34 then Some 34 else if e =? 92 then Some 92
                else if e =? 47 then Some 47 else if e =? 98 then Some 8
                else if e =? 102 then Some 12 else if e =? 110 then Some 10
                else if e =? 114 then Some 13 else if e =? 116 then Some 9
                else None in
              match unescaped with
              | Some u => read_string r1 (u :: acc)
              | None => None
              end
        end
      else if c <? 32 then None
      else read_string r (c :: acc)
  end.

(** A run of digits, most significant first, and the text after it. *)
Fixpoint read_digits (s : jsString) (acc : list N) : list N * jsString :=
  match s with
  | c :: r => if is_digit c then read_digits r (c - 48 :: acc) else (rev acc, s)
  | [] => (rev acc, [])
  end.

Definition digits_value (ds : list N) : Z :=
  fold_left (fun v d => (v * 10 + Z.of_N d)%Z) ds 0%Z.

(** Strip the trailing zeros of a mantissa into the exponent. *)
Fixpoint normalise (fuel : nat) (m e : Z) : Z * Z :=
  match fuel with
  | O => (m, e)
  | S fuel' =>
      if (m =? 0)%Z then (0%Z, 0%Z)
      else if (m mod 10 =? 0)%Z then normalise fuel' (m / 10)%Z (e + 1)%Z
      else (m, e)
  end.

(** number ::= -? int frac? exp?, where int has no leading zero. *)
Definition read_number (s : jsString) : option (json * jsString) :=
  let (neg, s1) := match s with
                   | c :: r => if c =? 45 then (true, r) else (false, s)
                   | [] => (false, s)
                   end in
  let (int, s2) := read_digits s1 [] in
  match int with
  | [] => None
  | d :: ds =>
      if (d =? 0) && negb (is_empty ds) then None
      else
        let frac_part :=
          match s2 with
          | c :: r =>
              if c =? 46 then
                let (fr, s3) := read_digits r [] in
                match fr with [] => None | _ => Some (fr, s3) end
              else Some ([], s2)
          | [] => Some ([], s2)
          end in
        match frac_part with
        | None => None
        | Some (fr, s3) =>
            let exp_part :=
              match s3 with
              | c :: r =>
                  if (c =? 101) || (c =? 69) then
                    let (eneg, r1) :=
                      match r with
                      | g :: r' => if g =? 45 then (true, r')
                                   else if g =? 43 then (false, r') else (false, r)
                      | [] => (false, r)
                      end in
                    let (ex, s4) := read_digits r1 [] in
                    match ex with
                    | [] => None
                    | _ => Some ((if eneg then - digits_value ex
                                  else digits_value ex)%Z, s4)
                    end
                  else Some (0%Z, s3)
              | [] => Some (0%Z, s3)
              end in
            match exp_part with
            | None => None
            | Some (ex, s4) =>
                let m := digits_value (int ++ fr) in
                let m := (if neg then - m else m)%Z in
                let e := (ex - Z.of_nat (length fr))%Z in
                let (m', e') := normalise (length (int ++ fr)) m e in
                Some (JNumber m' e', s4)
            end
        end
  end.

(** Setting a member: a repeated key keeps its place and takes the later
    value. *)
Fixpoint set_member (k : jsString) (v : json) (ms : list (jsString * json))
  : list (jsString * json) :=
  match ms with
  | [] => [(k, v)]
  | (k', v') :: ms' =>
      if decide (k = k') then (k, v) :: ms' else (k', v') :: set_member k v ms'
  end.

Definition starts_with (p s : jsString) : option jsString :=
  if decide (take (length p) s = p) then Some (drop (length p) s) else None.

(** value, the elements of an array after its bracket and the members of
    an object after its brace. Every call spends one unit of fuel. *)
Fixpoint read_value (fuel : nat) (s : jsString) : option (json * jsString) :=
  match fuel with
  | O => None
  | S fuel' =>
      match skip_ws s with
      | [] => None
      | c :: r =>
          if c =? 34 then
            match read_string r [] with
            | Some (str, r') => Some (JString str, r')
            | None => None
            end
          else if c =? 91 then
            match skip_ws r with
            | c' :: r' =>
                if c' =? 93 then Some (JArray [], r')
                else read_elements fuel' r []
            | [] => None
            end
          else if c =? 123 then
            match skip_ws r with
            | c' :: r' =>
                if c' =? 125 then Some (JObject [], r')
                else read_members fuel' r []
            | [] => None
            end
          else if (c =? 45) || is_digit c then read_number (c :: r)
          else
            match starts_with (js "null") (c :: r) with
            | Some r' => Some (JNull, r')
            | None =>
                match starts_with (js "true") (c :: r) with
                | Some r' => Some (JBool true, r')
                | None =>
                    match starts_with (js "false") (c :: r) with
                    | Some r' => Some (JBool false, r')
                    | None => None
                    end
                end
            end
      end
  end
with read_elements (fuel : nat) (s : jsString) (acc : list json)
  : option (json * jsString) :=
  match fuel with
  | O => None
  | S fuel' =>
      match read_value fuel' s with
      | None => None
      | Some (v, r) =>
          match skip_ws r with
          | c :: r' =>
              if c =? 44 then read_elements fuel' r' (v :: acc)
              else if c =? 93 then Some (JArray (rev (v :: acc)), r')
              else None
          | [] => None
          end
      end
  end
with read_members (fuel : nat) (s : jsString) (acc : list (jsString * json))
  : option (json * jsString) :=
  match fuel with
  | O => None
  | S fuel' =>
      match skip_ws s with
      | c :: r =>
          if c =? 34 then
            match read_string r [] with
            | None => None
            | Some (k, r1) =>
                match skip_ws r1 with
                | c1 :: r2 =>
                    if c1 =? 58 then
                      match read_value fuel' r2 with
                      | None => None
                      | Some (v, r3) =>
                          match skip_ws r3 with
                          | c3 :: r4 =>
                              if c3 =? 44 then
                                read_members fuel' r4 (set_member k v acc)
                              else if c3 =? 125 then
                                Some (JObject (set_member k v acc), r4)
                              else None
                          | [] => None
                          end
                      end
                    else None
                | [] => None
                end
            end
          else None
      | [] => None
      end
  end.

(** [JSON.parse(text)]: one value, white space around it and nothing
    else; [None] stands for the SyntaxError it throws. Every call spends
    one unit of fuel and no more than two calls are made per character
    read. *)
Definition JSON_parse (text : jsString) : option json :=
  match read_value (2 * length text + 2) text with
  | Some (v, r) => if is_empty (skip_ws r) then Some v else None
  | None => None
  end.

End Json.

Import Json.

(** ** class LineDecoder

    The decoder is generic in what [JSON.parse] returns and in the handler
    stored in [onmessage]: of the handler only whether it returns or throws
    matters, since the call sits inside the [try]. What the decoder does
    to the outside is recorded as a list of events. *)

Module LineDecoder.

Inductive event (Msg : Type) : Type :=
| OnMessage (message : Msg)
| ConsoleError (line : jsString).
Arguments OnMessage {Msg} message.
Arguments ConsoleError {Msg} line.

(** [private buffer = ""] *)
Record t : Type := { buffer : jsString }.

Definition new : t := {| buffer := [] |}.

Section Decoder.

Context {Msg : Type}.
Variable parse : jsString -> option Msg.
Variable onmessage_throws : Msg -> bool.

(** The body of the [for] loop, for one [line]. *)
Definition process_line (line : jsString) : list (event Msg) :=
  if is_empty (trim line) then []
  else
    match parse line with
    | Some message =>
        if onmessage_throws message
        then [OnMessage message; ConsoleError line]
        else [OnMessage message]
    | None => [ConsoleError line]
    end.

(** The whole [for (const line of lines)] loop. *)
Definition events (lines : list jsString) : list (event Msg) :=
  concat (map process_line lines).

Definition push (d : t) (chunk : jsString) : t * list (event Msg) :=
  let buffer := buffer d ++ chunk in
  let lines := split_lf buffer in
  (* lines.pop() || "" *)
  let rest := default [] (last lines) in
  let lines := removelast lines in
  ({| buffer := rest |}, events lines).

(** One [push] per chunk, as the [data] events of the child's stdout
    arrive. *)
Fixpoint push_all (d : t) (chunks : list jsString) : t * list (event Msg) :=
  match chunks with
  | [] => (d, [])
  | chunk :: chunks' =>
      let (d1, out1) := push d chunk in
      let (d2, out2) := push_all d1 chunks' in
      (d2, out1 ++ out2)
  end.

End Decoder.

(** The messages handed to [onmessage], in order. *)
Fixpoint messages {Msg : Type} (es : list (event Msg)) : list Msg :=
  match es with
  | [] => []
  | OnMessage m :: es' => m :: messages es'
  | ConsoleError _ :: es' => messages es'
  end.

(** The lines reported on the console, in order. *)
Fixpoint reported {Msg : Type} (es : list (event Msg)) : list jsString :=
  match es with
  | [] => []
  | OnMessage _ :: es' => reported es'
  | ConsoleError l :: es' => l :: reported es'
  end.

End LineDecoder.

(** ** createTransport: the headers of the outbound connection *)

Module Headers.

(** [req.headers[key]] is a string, an array of strings, or undefined; an
    undefined header is one the map does not hold. *)
Inductive header_value : Type :=
| HString (value : jsString)
| HArray (values : list jsString).

(** What ends up as a property of [headers]: a string, or [undefined]
    when the last element of an empty array is read. *)
Inductive jsValue : Type :=
| VString (s : jsString)
| VUndefined.

Definition SSE_HEADERS_PASSTHROUGH : list jsString := [js "authorization"].

Definition STREAMABLE_HTTP_HEADERS_PASSTHROUGH : list jsString :=
  [js "authorization"; js "mcp-session-id"; js "last-event-id"].

(** [Array.isArray(value) ? value[value.length - 1] : value] *)
Definition pick (value : header_value) : jsValue :=
  match value with
  | HString v => VString v
  | HArray vs => match last vs with Some v => VString v | None => VUndefined end
  end.

(** The [for (const key of ...)] loop over an allow-list. *)
Fixpoint passthrough (keys : list jsString)
    (req_headers : gmap jsString header_value)
    (headers : gmap jsString jsValue) : gmap jsString jsValue :=
  match keys with
  | [] => headers
  | key :: keys' =>
      match req_headers !! key with
      | None => passthrough keys' req_headers headers
      | Some value => passthrough keys' req_headers (<[key := pick value]> headers)
      end
  end.

(** Node hands over the names of the headers of an incoming request in
    lower case. *)
Definition is_lower_case (name : jsString) : bool :=
  forallb (fun c => negb ((65 <=? c) && (c <=? 90))) name.

Inductive style : Type := Sse | StreamableHttp.

Definition allow_list (st : style) : list jsString :=
  match st with
  | Sse => SSE_HEADERS_PASSTHROUGH
  | StreamableHttp => STREAMABLE_HTTP_HEADERS_PASSTHROUGH
  end.

Definition accept (st : style) : jsString :=
  match st with
  | Sse => js "text/event-stream"
  | StreamableHttp => js "text/event-stream, application/json"
  end.

(** The [headers] object either branch of [createTransport] hands to the
    client transport it builds. *)
Definition outbound_headers (st : style)
    (req_headers : gmap jsString header_value) : gmap jsString jsValue :=
  passthrough (allow_list st) req_headers {[ js "Accept" := VString (accept st) ]}.

(** A request to try the builds on. *)
Definition sample_request : gmap jsString header_value :=
  <[js "authorization" := HString (js "Bearer t0k3n")]>
    (<[js "cookie" := HString (js "sid=1")]>
       (<[js "last-event-id" := HArray [js "7"; js "8"; js "9"]]> ∅)).

End Headers.

(** ** The environment of the spawned process *)

Module Env.

(** An object literal made of spreads: a later spread overwrites the keys
    of an earlier one. [spread base o] is [{ ...base, ...o }]. *)
Definition spread {V : Type} (base o : gmap jsString V) : gmap jsString V :=
  o ∪ base.

(** The values of [process.env] and of [getDefaultEnvironment()] are
    strings; what [JSON.parse] returns can hold any JSON value. *)
Definition of_strings (m : gmap jsString jsString) : gmap jsString json :=
  JString <$> m.

(** The own enumerable properties a spread copies out of a parsed JSON
    value: the members of an object, the indices of an array or of a
    string, nothing for the other values. *)
Fixpoint digits_of (fuel : nat) (n : N) (acc : jsString) : jsString :=
  match fuel with
  | O => acc
  | S fuel' =>
      let acc' := (48 + n mod 10) :: acc in
      if n / 10 =? 0 then acc' else digits_of fuel' (n / 10) acc'
  end.

Definition index_key (i : nat) : jsString :=
  digits_of (S i) (N.of_nat i) [].

Definition indexed {A : Type} (f : A -> json) (l : list A) : gmap jsString json :=
  list_to_map (imap (fun i x => (index_key i, f x)) l).

Definition own_properties (v : json) : gmap jsString json :=
  match v with
  | JObject members => list_to_map members
  | JArray elements => indexed (fun x => x) elements
  | JString s => indexed (fun c => JString [c]) s
  | _ => ∅
  end.

(** [text ? JSON.parse(text) : {}], spread into an object literal: an
    undefined or empty text is falsy; [None] when [JSON.parse] throws. *)
Definition parse_if_truthy (text : option jsString)
  : option (gmap jsString json) :=
  match text with
  | None => Some ∅
  | Some t => if is_empty t then Some ∅ else own_properties <$> JSON_parse t
  end.

Section Environment.

(** [process.env] and [getDefaultEnvironment()] *)
Variable process_env : gmap jsString jsString.
Variable getDefaultEnvironment : gmap jsString jsString.

(** [defaultEnvironment], computed once when the module is loaded;
    [None] when [JSON.parse] throws and the server does not start. *)
Definition defaultEnvironment : option (gmap jsString json) :=
  match parse_if_truthy (process_env !! js "MCP_ENV_VARS") with
  | Some vars => Some (spread (of_strings getDefaultEnvironment) vars)
  | None => None
  end.

(** [const env = { ...process.env, ...defaultEnvironment, ...queryEnv }]
    of the /stdio handler; [None] when [JSON.parse(query.env)] throws. *)
Definition stdio_env (defaults : gmap jsString json)
    (query_env : option jsString) : option (gmap jsString json) :=
  match parse_if_truthy query_env with
  | Some queryEnv =>
      Some (spread (spread (of_strings process_env) defaults) queryEnv)
  | None => None
  end.

End Environment.

(** Layers to try the merge on. *)
Definition sample_process_env : gmap jsString jsString :=
  <[js "PATH" := js "/usr/bin"]>
    (<[js "HOME" := js "/root"]>
       (<[js "LANG" := js "C"]>
          (<[js "MCP_ENV_VARS" := jq "{'HOME':'/srv','TOKEN':'from-defaults'}"]>
             ∅))).

Definition sample_default_env : gmap jsString jsString :=
  <[js "PATH" := js "/bin"]> (<[js "HOME" := js "/home/mcp"]> ∅).

End Env.

(** ** findAvailablePort and startServer *)

Module Port.

(** What [server.listen(startPort)] leads to: the [listening] callback,
    where [server.address()] reports a port, or an [error] event with a
    code. *)
Inductive listen_outcome : Type :=
| Listening (address_port : Z)
| ErrorEvent (code : jsString).

Inductive action : Type :=
| Listen (port : Z)
| Close (port : Z).

Inductive settled : Type :=
| Resolved (port : Z)
| Rejected (code : jsString).

(** [n] calls of [listen], on [p], [p + 1], ... in this order. *)
Fixpoint probes (p : Z) (n : nat) : list action :=
  match n with
  | O => []
  | S n' => Listen p :: probes (p + 1) n'
  end.

Section Allocator.

(** The operating system, as seen through [net.Server]. *)
Variable listen : Z -> listen_outcome.

(** Binding the port fails because it is occupied. *)
Definition in_use (q : Z) : Prop := listen q = ErrorEvent (js "EADDRINUSE").

(** The promise [findAvailablePort(startPort)] returns, with the socket
    calls made on the way; [None] while it is still pending when the
    fuel runs out. *)
Fixpoint findAvailablePort (fuel : nat) (startPort : Z)
  : option (settled * list action) :=
  match fuel with
  | O => None
  | S fuel' =>
      match listen startPort with
      | Listening port =>
          (* server.close(() => resolve(port)) *)
          Some (Resolved port, [Listen startPort; Close startPort])
      | ErrorEvent code =>
          if decide (code = js "EADDRINUSE") then
            match findAvailablePort fuel' (startPort + 1) with
            | Some (r, acts) => Some (r, Listen startPort :: acts)
            | None => None
            end
          else Some (Rejected code, [Listen startPort])
      end
  end.

Inductive started : Type :=
| Serving (port : Z)
| Exit (code : Z).

(** [startServer]: [app.listen] on the port found, [process.exit(1)] when
    the promise is rejected or when the server then emits [error]. *)
Definition startServer (fuel : nat) (PORT : Z) (app_listen_fails : Z -> bool)
  : option started :=
  match findAvailablePort fuel PORT with
  | None => None
  | Some (Resolved availablePort, _) =>
      if app_listen_fails availablePort then Some (Exit 1)
      else Some (Serving availablePort)
  | Some (Rejected _, _) => Some (Exit 1)
  end.

End Allocator.

(** Two machines to try the allocator on: one where 6277 and 6278 are
    taken, one where 6277 is taken and binding 6278 is refused. *)
Definition two_taken (q : Z) : listen_outcome :=
  if (q =? 6277)%Z || (q =? 6278)%Z then ErrorEvent (js "EADDRINUSE")
  else Listening q.

Definition refused (q : Z) : listen_outcome :=
  if (q =? 6277)%Z then ErrorEvent (js "EADDRINUSE")
  else ErrorEvent (js "EACCES").

End Port.

(** ** The session registry and the request handlers *)

Module Proxy.

Import Headers.

(** Transport objects live in a store and are known by reference: the
    two maps, the closures and the pump all share them. *)
Definition tref : Type := nat.

(** What a handler can catch: an [SseError] with its [code], or any other
    exception. *)
Inductive error : Type :=
| SseError (code : option Z)
| OtherError (message : jsString).

(** [error instanceof SseError && error.code === 401] *)
Definition is_401 (e : error) : bool :=
  match e with
  | SseError (Some code) => (code =? 401)%Z
  | _ => false
  end.

(** The functions stored in an [onclose] property.
    - [Nop] is [() => {}], also standing for a property never assigned;
    - [Cleanup sessionId kill] is the arrow function the handlers assign
      to [webAppTransport.onclose]: it deletes [sessionId] from both maps
      and, in the /stdio handler only, calls [backingServerTransport.close()];
    - [PumpClose previous other] is what the pump installs, see
      [mcpProxy] below. *)
Inductive closure : Type :=
| Nop
| Cleanup (sessionId : jsString) (kill : option tref)
| PumpClose (previous : closure) (other : tref).

Record transport : Type := {
  onclose : closure;
  closed : bool;
  (** how many times [close()] was called on it *)
  close_calls : nat
}.

Definition fresh_transport : transport :=
  {| onclose := Nop; closed := false; close_calls := 0 |}.

Record state : Type := {
  webAppTransports : gmap jsString tref;
  backingServerTransports : gmap jsString tref;
  store : list transport
}.

Definition initial : state :=
  {| webAppTransports := ∅; backingServerTransports := ∅; store := [] |}.

(** *** Handlers as computations that may throw *)

Inductive result (A : Type) : Type :=
| Ok (a : A)
| Throw (e : error).
Arguments Ok {A} a.
Arguments Throw {A} e.

Definition M (A : Type) : Type := state -> result A * state.

Definition ret {A : Type} (a : A) : M A := fun st => (Ok a, st).

Definition throw {A : Type} (e : error) : M A := fun st => (Throw e, st).

Definition bind {A B : Type} (m : M A) (k : A -> M B) : M B :=
  fun st =>
    match m st with
    | (Ok a, st') => k a st'
    | (Throw e, st') => (Throw e, st')
    end.

(** [try { m } catch (error) { handler error }]: what [m] did to the
    maps before it threw stays done. *)
Definition try_catch {A : Type} (m : M A) (handler : error -> M A) : M A :=
  fun st =>
    match m st with
    | (Ok a, st') => (Ok a, st')
    | (Throw e, st') => handler e st'
    end.

Notation "'let*' x ':=' m 'in' k" := (bind m (fun x => k))
  (at level 10, x name, m at level 100, k at level 200, only parsing).
Notation "'do' m 'then' k" := (bind m (fun _ => k))
  (at level 10, m at level 100, k at level 200, only parsing).

(** [new SomeTransport(...)], or the object literal of the /stdio
    handler. *)
Definition new_transport : M tref :=
  fun st =>
    (Ok (length (store st)),
     {| webAppTransports := webAppTransports st;
        backingServerTransports := backingServerTransports st;
        store := store st ++ [fresh_transport] |}).

Definition with_store (st : state) (s : list transport) : state :=
  {| webAppTransports := webAppTransports st;
     backingServerTransports := backingServerTransports st;
     store := s |}.

(** [webAppTransports.set(sessionId, t)] *)
Definition set_web (sessionId : jsString) (t : tref) : M unit :=
  fun st =>
    (Ok tt,
     {| webAppTransports := <[sessionId := t]> (webAppTransports st);
        backingServerTransports := backingServerTransports st;
        store := store st |}).

(** [backingServerTransports.set(sessionId, t)] *)
Definition set_backing (sessionId : jsString) (t : tref) : M unit :=
  fun st =>
    (Ok tt,
     {| webAppTransports := webAppTransports st;
        backingServerTransports := <[sessionId := t]> (backingServerTransports st);
        store := store st |}).

(** [webAppTransports.get(sessionId)] *)
Definition get_web (sessionId : jsString) : M (option tref) :=
  fun st => (Ok (webAppTransports st !! sessionId), st).

Definition with_onclose (o : transport) (c : closure) : transport :=
  {| onclose := c; closed := closed o; close_calls := close_calls o |}.

(** The transport has ended; [called] tells whether through a call of
    its [close()]. *)
Definition ended (o : transport) (called : bool) : transport :=
  {| onclose := onclose o; closed := true;
     close_calls := if called then S (close_calls o) else close_calls o |}.

(** [t.onclose = c] *)
Definition assign_onclose (t : tref) (c : closure) (st : state) : state :=
  match store st !! t with
  | Some o => with_store st (<[t := with_onclose o c]> (store st))
  | None => st
  end.

Definition set_onclose (t : tref) (c : closure) : M unit :=
  fun st => (Ok tt, assign_onclose t c st).

Definition current_onclose (t : tref) (st : state) : closure :=
  match store st !! t with
  | Some o => onclose o
  | None => Nop
  end.

(** Modelled from the spec: mcpProxy.js is not among the sources; only
    its calls are, [mcpProxy({ transportToClient, transportToServer })],
    which hand it the two transports and nothing of the registry. Of the
    pump (section 4.5) the part that matters to the registry is modelled:
    when either side raises [onclose], the pump triggers the teardown of
    the session and closes the other side if it is still open. It hears
    of a closure the way the Transport contract offers, through the
    [onclose] property, and reaches the registry through the handler it
    finds there when it is wired. *)
Definition mcpProxy (transportToClient transportToServer : tref) : M unit :=
  fun st =>
    let st1 :=
      assign_onclose transportToClient
        (PumpClose (current_onclose transportToClient st) transportToServer) st in
    let st2 :=
      assign_onclose transportToServer
        (PumpClose (current_onclose transportToServer st1) transportToClient) st1 in
    (Ok tt, st2).

(** *** Closing *)

Definition is_open (t : tref) (st : state) : bool :=
  match store st !! t with
  | Some o => negb (closed o)
  | None => false
  end.

Definition unregister (sessionId : jsString) (st : state) : state :=
  {| webAppTransports := delete sessionId (webAppTransports st);
     backingServerTransports := delete sessionId (backingServerTransports st);
     store := store st |}.

(** [run_onclose c] calls the function [c]; [close t] is [t.close()],
    which ends the transport and, unless it had ended before, has its
    [onclose] called. For the object literal of /stdio, [close] is
    [child.kill()] and [onclose] is called from the child's [exit]
    event, which is taken to follow at once. [None]: out of fuel. *)
Fixpoint run_onclose (fuel : nat) (c : closure) (st : state) : option state :=
  match fuel with
  | O => None
  | S fuel' =>
      match c with
      | Nop => Some st
      | Cleanup sessionId kill =>
          let st1 := unregister sessionId st in
          match kill with
          | Some backingServerTransport => close fuel' backingServerTransport st1
          | None => Some st1
          end
      | PumpClose previous other =>
          match run_onclose fuel' previous st with
          | Some st1 => if is_open other st1 then close fuel' other st1 else Some st1
          | None => None
          end
      end
  end
with close (fuel : nat) (t : tref) (st : state) : option state :=
  match fuel with
  | O => None
  | S fuel' =>
      match store st !! t with
      | None => Some st
      | Some o =>
          let st1 := with_store st (<[t := ended o true]> (store st)) in
          if closed o then Some st1 else run_onclose fuel' (onclose o) st1
      end
  end.

(** The transport [t] ends by itself (the browser disconnects, the
    remote server hangs up, the child exits) and raises [onclose]. *)
Definition raise_onclose (fuel : nat) (t : tref) (st : state) : option state :=
  match store st !! t with
  | None => Some st
  | Some o =>
      if closed o then Some st
      else
        run_onclose fuel (onclose o)
          (with_store st (<[t := ended o false]> (store st)))
  end.

(** *** Requests and what lies outside the server *)

Record request : Type := {
  headers : gmap jsString header_value;
  query : gmap jsString jsString
}.

(** The two things lookups by an observer can see of a session. *)
Definition lookup (sessionId : jsString) (st : state)
  : option tref * option tref :=
  (webAppTransports st !! sessionId, backingServerTransports st !! sessionId).

(** The remote servers, the operating system and the module constants. *)
Record world : Type := {
  (** [new URL(url)] and [transport.start()] of the client transport
      built for a remote server: [Some e] when either throws [e]; a
      transport that does not start is dropped and never entered in
      the store *)
  connect : style -> option jsString -> gmap jsString jsValue -> option error;
  process_env : gmap jsString jsString;
  getDefaultEnvironment : gmap jsString jsString;
  (** the constant computed when the module was loaded *)
  defaultEnvironment : gmap jsString json;
  (** [shellParseArgs], [findActualExecutable] and [launchMCPServer] on
      command, args, env and server name: [Some e] when one throws *)
  launch : option jsString -> option jsString -> gmap jsString json ->
           jsString -> option error
}.

(** What [handleRequest] of a new streamable-http server transport does
    with the request it is given. *)
Inductive handshake : Type :=
| Initialized (newSessionId : jsString)
| NotInitialized
| HandleThrows (e : error).

(** What the SDK contributes to one request: the session id a new
    [SSEServerTransport] draws, whether [webAppTransport.start()] throws,
    and how [handleRequest] goes. *)
Record sdk : Type := {
  new_session_id : jsString;
  client_start : option error;
  handle_request : handshake
}.

Inductive response : Type :=
| Status (code : Z)
(** the event stream was opened by [webAppTransport.start()] *)
| StreamOpened
(** the SDK transport answered in [handleRequest] or [handlePostMessage] *)
| Delegated
(** [webAppTransport.send(errorNotification)] *)
| ErrorNotification
| NoReply.

(** The server is running: loading the module went through and gave
    the constant. *)
Definition loaded (w : world) : Prop :=
  Env.defaultEnvironment (process_env w) (getDefaultEnvironment w)
  = Some (defaultEnvironment w).

(** [env], as the /stdio handler computes it from the request. *)
Definition spawn_env (w : world) (req : request)
  : option (gmap jsString json) :=
  Env.stdio_env (process_env w) (defaultEnvironment w) (query req !! js "env").

Definition fails (o : option error) : M unit :=
  match o with
  | Some e => throw e
  | None => ret tt
  end.

(** The value of [query.transportType] that selects a style. *)
Definition style_name (sty : style) : jsString :=
  match sty with
  | Sse => js "sse"
  | StreamableHttp => js "streamable-http"
  end.

Definition createTransport (w : world) (req : request) : M tref :=
  let transportType := query req !! js "transportType" in
  if decide (transportType = Some (js "sse")) then
    let url := query req !! js "url" in
    let headers := outbound_headers Sse (headers req) in
    do fails (connect w Sse url headers) then
    new_transport
  else if decide (transportType = Some (js "streamable-http")) then
    let headers := outbound_headers StreamableHttp (headers req) in
    do fails (connect w StreamableHttp (query req !! js "url") headers) then
    new_transport
  else throw (OtherError (js "Invalid transport type specified")).

(** [req.headers["mcp-session-id"]] used as a key: an absent or empty
    header is falsy, an array is truthy and a key no map holds. *)
Inductive session_header : Type :=
| Falsy
| Key (sessionId : jsString)
| NotAKey.

Definition mcp_session_id (req : request) : session_header :=
  match headers req !! js "mcp-session-id" with
  | None => Falsy
  | Some (HString s) => if is_empty s then Falsy else Key s
  | Some (HArray _) => NotAKey
  end.

(** [app.get("/mcp")] *)
Definition get_mcp (io : sdk) (req : request) : M response :=
  try_catch
    (match headers req !! js "mcp-session-id" with
     | Some (HString sessionId) =>
         let* transport := get_web sessionId in
         match transport with
         | None => ret (Status 404)
         | Some _ =>
             match handle_request io with
             | HandleThrows e => throw e
             | _ => ret Delegated
             end
         end
     | _ => ret (Status 404)
     end)
    (fun error => ret (Status 500)).

(** The [onsessioninitialized] callback of the streamable-http server
    transport built for a new session. *)
Definition onsessioninitialized (webAppTransport backingServerTransport : tref)
    (newSessionId : jsString) : M unit :=
  do set_web newSessionId webAppTransport then
  do set_backing newSessionId backingServerTransport then
  do mcpProxy webAppTransport backingServerTransport then
  set_onclose webAppTransport (Cleanup newSessionId None).

(** [app.post("/mcp")] *)
Definition post_mcp (w : world) (io : sdk) (req : request) : M response :=
  match mcp_session_id req with
  | Falsy =>
      try_catch
        (let* built :=
           try_catch
             (let* t := createTransport w req in ret (inr t))
             (fun error =>
                if is_401 error then ret (inl (Status 401)) else throw error) in
         match built with
         | inl answered => ret answered
         | inr backingServerTransport =>
             let* webAppTransport := new_transport in
             do fails (client_start io) then
             match handle_request io with
             | Initialized newSessionId =>
                 do onsessioninitialized webAppTransport
                      backingServerTransport newSessionId then
                 ret Delegated
             | NotInitialized => ret Delegated
             | HandleThrows e => throw e
             end
         end)
        (fun error => ret (Status 500))
  | Key sessionId =>
      try_catch
        (let* transport := get_web sessionId in
         match transport with
         | None => ret (Status 404)
         | Some _ =>
             match handle_request io with
             | HandleThrows e => throw e
             | _ => ret Delegated
             end
         end)
        (fun error => ret (Status 500))
  | NotAKey => ret (Status 404)
  end.

(** [app.get("/stdio")] *)
Definition get_stdio (w : world) (io : sdk) (req : request) : M response :=
  try_catch
    (let* webAppTransport := new_transport in
     let sessionId := new_session_id io in
     do set_web sessionId webAppTransport then
     try_catch
       (let command := query req !! js "command" in
        let origArgs := query req !! js "args" in
        match spawn_env w req with
        | None => throw (OtherError (js "SyntaxError"))
        | Some env =>
            let serverName :=
              match query req !! js "serverName" with
              | Some n => if is_empty n then js "unknown-stdio-server" else n
              | None => js "unknown-stdio-server"
              end in
            do fails (launch w command origArgs env serverName) then
            let* backingServerTransport := new_transport in
            do set_backing sessionId backingServerTransport then
            do set_onclose webAppTransport
              (Cleanup sessionId (Some backingServerTransport)) then
            do fails (client_start io) then
            do mcpProxy webAppTransport backingServerTransport then
            ret StreamOpened
        end)
       (fun error => ret ErrorNotification))
    (fun error => ret NoReply).

(** [app.get("/sse")] *)
Definition get_sse (w : world) (io : sdk) (req : request) : M response :=
  try_catch
    (let* webAppTransport := new_transport in
     let sessionId := new_session_id io in
     do set_web sessionId webAppTransport then
     try_catch
       (let* backingServerTransport := createTransport w req in
        do set_backing sessionId backingServerTransport then
        do set_onclose webAppTransport (Cleanup sessionId None) then
        do fails (client_start io) then
        do mcpProxy webAppTransport backingServerTransport then
        ret StreamOpened)
       (fun error =>
          if is_401 error then ret (Status 401) else throw error))
    (fun error => ret NoReply).

(** [app.post("/message")], the session id being [req.query.sessionId] *)
Definition post_message (io : sdk) (req : request) : M response :=
  try_catch
    (match query req !! js "sessionId" with
     | None => ret (Status 404)
     | Some sessionId =>
         let* transport := get_web sessionId in
         match transport with
         | None => ret (Status 404)
         | Some _ =>
             match handle_request io with
             | HandleThrows e => throw e
             | _ => ret Delegated
             end
         end
     end)
    (fun error => ret (Status 500)).

(** *** Worlds, requests and SDK behaviours to run the handlers on *)

Definition no_launch_error : option jsString -> option jsString ->
    gmap jsString json -> jsString -> option error :=
  fun _ _ _ _ => None.

(** Every remote server accepts the connection. *)
Definition world_ok : world :=
  {| connect := fun _ _ _ => None;
     process_env := ∅;
     getDefaultEnvironment := ∅;
     defaultEnvironment := ∅;
     launch := no_launch_error |}.

(** Every remote server answers 401. *)
Definition world_unauthorized : world :=
  {| connect := fun _ _ _ => Some (SseError (Some 401%Z));
     process_env := ∅;
     getDefaultEnvironment := ∅;
     defaultEnvironment := ∅;
     launch := no_launch_error |}.

(** No command can be spawned. *)
Definition world_no_spawn : world :=
  {| connect := fun _ _ _ => None;
     process_env := ∅;
     getDefaultEnvironment := ∅;
     defaultEnvironment := ∅;
     launch := fun _ _ _ _ => Some (OtherError (js "spawn ENOENT")) |}.

Definition sdk_s1 : sdk :=
  {| new_session_id := js "s1";
     client_start := None;
     handle_request := Initialized (js "s1") |}.

Definition sse_request : request :=
  {| headers := {[ js "authorization" := HString (js "Bearer t0k3n") ]};
     query := <[js "transportType" := js "sse"]>
                (<[js "url" := js "http://localhost:3001/sse"]> ∅) |}.

Definition http_request : request :=
  {| headers := {[ js "authorization" := HString (js "Bearer t0k3n") ]};
     query := <[js "transportType" := js "streamable-http"]>
                (<[js "url" := js "http://localhost:3001/mcp"]> ∅) |}.

Definition websocket_request : request :=
  {| headers := ∅;
     query := <[js "transportType" := js "websocket"]>
                (<[js "url" := js "ws://localhost:3001"]> ∅) |}.


(** What one can see of a transport. *)
Definition observe (t : tref) (st : state) : option (bool * nat) :=
  match store st !! t with
  | Some o => Some (closed o, close_calls o)
  | None => None
  end.

(** A session is whole in a state when both maps hold it, gone when
    neither does, and half otherwise. *)
Definition half (sessionId : jsString) (st : state) : bool :=
  xorb (bool_decide (is_Some (webAppTransports st !! sessionId)))
       (bool_decide (is_Some (backingServerTransports st !! sessionId))).

(** The invariant of the registry: no session is half there. *)
Definition paired (st : state) : Prop :=
  forall sessionId,
    is_Some (webAppTransports st !! sessionId)
    <-> is_Some (backingServerTransports st !! sessionId).

End Proxy.

(** ** The server over a sequence of requests *)

Module Serve.

Import Headers Proxy.

(** What happens to the server, one thing after the other: a request
    comes in and its handler runs to its end, with the world and the SDK
    as they are then, or a transport ends and raises [onclose]. *)
Inductive event : Type :=
| PostMcp (w : world) (io : sdk) (req : request)
| GetMcp (io : sdk) (req : request)
| PostMessage (io : sdk) (req : request)
| GetSse (w : world) (io : sdk) (req : request)
| GetStdio (w : world) (io : sdk) (req : request)
| Ends (t : tref).






(** A morning of the server: a streamable-http session and a push-stream
    session are opened, the first is used and closed by its client, a
    third attempt is refused by the remote server, a process is spawned
    and exits. *)
Definition sdk_s2 : sdk :=
  {| new_session_id := js "s2";
     client_start := None;
     handle_request := NotInitialized |}.


Definition request_s1 : request :=
  {| headers := {[ js "mcp-session-id" := HString (js "s1") ]};
     query := {[ js "sessionId" := js "s2" ]} |}.

(** A request with no header and no query parameter. *)
Definition bare_request : request := {| headers := ∅; query := ∅ |}.


End Serve.

(** ** The logging endpoint *)

Module ApiLog.

Import Proxy.






End ApiLog.

(** ** JSON.stringify of an object of strings *)

Module JsonText.

(** A code unit of a JavaScript string is below 2^16. *)
Definition well_formed (s : jsString) : Prop := Forall (fun c => c < 65536) s.

Definition hex_digit (n : N) : N := if n <? 10 then 48 + n else 87 + n.

(** The escape [\uXXXX], in lower-case digits. *)
Definition escape_u (c : N) : jsString :=
  [92; 117; hex_digit (c / 4096); hex_digit ((c / 256) mod 16);
   hex_digit ((c / 16) mod 16); hex_digit (c mod 16)].

(** QuoteJSONString on one code unit that is not a surrogate. *)
Definition quote_unit (c : N) : jsString :=
  if c =? 8 then [92; 98]
  else if c =? 9 then [92; 116]
  else if c =? 10 then [92; 110]
  else if c =? 12 then [92; 102]
  else if c =? 13 then [92; 114]
  else if c =? 34 then [92; 34]
  else if c =? 92 then [92; 92]
  else if c <? 32 then escape_u c
  else [c].

Definition is_high_surrogate (c : N) : bool := (55296 <=? c) && (c <=? 56319).
Definition is_low_surrogate (c : N) : bool := (56320 <=? c) && (c <=? 57343).

(** A surrogate pair is written as it is, a lone surrogate as an
    escape. *)
Fixpoint quote_units (s : jsString) : jsString :=
  match s with
  | [] => []
  | c :: r =>
      if is_high_surrogate c then
        match r with
        | d :: r' =>
            if is_low_surrogate d then c :: d :: quote_units r'
            else escape_u c ++ quote_units r
        | [] => escape_u c
        end
      else if is_low_surrogate c then escape_u c ++ quote_units r
      else quote_unit c ++ quote_units r
  end.

Definition quote (s : jsString) : jsString := 34 :: quote_units s ++ [34].

Definition member_text (kv : jsString * jsString) : jsString :=
  quote (fst kv) ++ 58 :: quote (snd kv).

Fixpoint members_text (members : list (jsString * jsString)) : jsString :=
  match members with
  | [] => []
  | [kv] => member_text kv
  | kv :: rest => member_text kv ++ 44 :: members_text rest
  end.

(** [JSON.stringify(o)] for an object [o] whose own properties, in the
    order it enumerates them, are [members], all with string values. *)
Definition stringify (members : list (jsString * jsString)) : jsString :=
  123 :: members_text members ++ [125].

Definition wf_member (kv : jsString * jsString) : Prop :=
  well_formed (fst kv) /\ well_formed (snd kv).

(** The member [JSON.parse] is to give back. *)
Definition as_json (kv : jsString * jsString) : jsString * json :=
  (fst kv, JString (snd kv)).

Definition add_member (acc : list (jsString * json))
    (kv : jsString * jsString) : list (jsString * json) :=
  set_member (fst kv) (JString (snd kv)) acc.

End JsonText.

(** ** The launcher (bin/cli.js) *)

Module Launcher.

(** [s.indexOf("=")] *)
Fixpoint index_of (c : N) (s : jsString) : option nat :=
  match s with
  | [] => None
  | d :: r => if d =? c then Some O else S <$> index_of c r
  end.

(** [o[k] = v] on an object made by [{}] that holds strings: a new key
    comes last, a key already there keeps its place; assigning a string
    to [__proto__] goes to the setter inherited from [Object.prototype],
    which ignores it. *)
Fixpoint assign (k v : jsString) (o : list (jsString * jsString))
  : list (jsString * jsString) :=
  match o with
  | [] => [(k, v)]
  | (k', v') :: o' =>
      if decide (k = k') then (k, v) :: o' else (k', v') :: assign k v o'
  end.

Definition set_property (k v : jsString) (o : list (jsString * jsString))
  : list (jsString * jsString) :=
  if decide (k = js "__proto__") then o else assign k v o.

(** The operand of [-e]: key and value around the first [=], or the
    whole operand as key and the empty string. *)
Definition split_var (envVar : jsString) : jsString * jsString :=
  match index_of 61 envVar with
  | Some equalsIndex => (take equalsIndex envVar, drop (S equalsIndex) envVar)
  | None => (envVar, [])
  end.

Record parsed : Type := {
  envVars : list (jsString * jsString);
  command : option jsString;
  mcpServerArgs : list jsString;
  parsingFlags : bool
}.

(** [!command]: [null] and the empty string are falsy. *)
Definition no_command (command : option jsString) : bool :=
  match command with
  | None => true
  | Some c => is_empty c
  end.

(** The [for] loop over [args], from index [i] on. *)
Fixpoint loop (args : list jsString) (st : parsed) : parsed :=
  match args with
  | [] => st
  | arg :: rest =>
      let positional :=
        if no_command (command st) then
          {| envVars := envVars st; command := Some arg;
             mcpServerArgs := mcpServerArgs st;
             parsingFlags := parsingFlags st |}
        else
          {| envVars := envVars st; command := command st;
             mcpServerArgs := mcpServerArgs st ++ [arg];
             parsingFlags := parsingFlags st |} in
      if parsingFlags st && bool_decide (arg = js "--") then
        loop rest
          {| envVars := envVars st; command := command st;
             mcpServerArgs := mcpServerArgs st; parsingFlags := false |}
      else
        match rest with
        | envVar :: rest' =>
            if parsingFlags st && bool_decide (arg = js "-e") then
              let (key, value) := split_var envVar in
              loop rest'
                {| envVars := set_property key value (envVars st);
                   command := command st;
                   mcpServerArgs := mcpServerArgs st;
                   parsingFlags := parsingFlags st |}
            else loop rest positional
        | [] => loop rest positional
        end
  end.

Definition start : parsed :=
  {| envVars := []; command := None; mcpServerArgs := [];
     parsingFlags := true |}.

(** What [main] makes of [process.argv.slice(2)]. *)
Definition parse_args (args : list jsString) : parsed := loop args start.

(** [process.env.SERVER_PORT ?? "6277"] *)
Definition SERVER_PORT (process_env : gmap jsString jsString) : jsString :=
  default (js "6277") (process_env !! js "SERVER_PORT").

(** The [env] the server is spawned with:
    [{ ...process.env, PORT: SERVER_PORT, MCP_ENV_VARS: JSON.stringify(envVars) }],
    [members] being the properties of [envVars] as it enumerates them. *)
Definition server_env (process_env : gmap jsString jsString)
    (members : list (jsString * jsString)) : gmap jsString jsString :=
  <[js "MCP_ENV_VARS" := JsonText.stringify members]>
    (<[js "PORT" := SERVER_PORT process_env]> process_env).

(** [const PORT = process.env.PORT || 6277] of the server it spawns,
    before [Number(PORT)]: [None] is the number 6277. *)
Definition PORT (process_env : gmap jsString jsString) : option jsString :=
  match process_env !! js "PORT" with
  | Some p => if is_empty p then None else Some p
  | None => None
  end.

(** The three things the body of the loop can do to the state. *)
Definition end_of_flags (st : parsed) : parsed :=
  {| envVars := envVars st; command := command st;
     mcpServerArgs := mcpServerArgs st; parsingFlags := false |}.

Definition take_var (envVar : jsString) (st : parsed) : parsed :=
  {| envVars := set_property (fst (split_var envVar)) (snd (split_var envVar))
                  (envVars st);
     command := command st;
     mcpServerArgs := mcpServerArgs st;
     parsingFlags := parsingFlags st |}.

Definition take_positional (arg : jsString) (st : parsed) : parsed :=
  if no_command (command st) then
    {| envVars := envVars st; command := Some arg;
       mcpServerArgs := mcpServerArgs st; parsingFlags := parsingFlags st |}
  else
    {| envVars := envVars st; command := command st;
       mcpServerArgs := mcpServerArgs st ++ [arg];
       parsingFlags := parsingFlags st |}.

(** An argument that is neither [-e] nor [--]. *)
Definition plain (arg : jsString) : Prop := arg <> js "-e" /\ arg <> js "--".

(** [envVars] after the assignments of a run of [-e] flags. *)
Definition assign_all (vars : list (jsString * jsString))
    (o : list (jsString * jsString)) : list (jsString * jsString) :=
  fold_left (fun o kv => set_property (fst kv) (snd kv) o) vars o.

(** The operands of a run of [-e] flags. *)
Definition flags (vars : list (jsString * jsString)) : list jsString :=
  flat_map (fun kv => [js "-e"; fst kv ++ 61 :: snd kv]) vars.

(** A command line used in the examples: [API_KEY] set twice, a value
    with [=] in it, a variable without value. *)
Definition sample_vars : list (jsString * jsString) :=
  [(js "API_KEY", js "first"); (js "URL", js "http://h/?a=b");
   (js "DEBUG", []); (js "API_KEY", js "second")].

Definition sample_args : list jsString := [js "server.js"; js "--port=3"].

Definition sample_process_env : gmap jsString jsString :=
  {[ js "PATH" := js "/bin"; js "PORT" := js "3000";
     js "SERVER_PORT" := js "7000" ]}.

End Launcher.

(** * Properties *)

(** ** The JSON reader on a few texts *)

Module JsonFacts.

Example parse_object :
  JSON_parse (jq "{'a':1}") = Some (JObject [(js "a", JNumber 1 0)]).
Proof. vm_compute. reflexivity. Qed.

Example parse_repeated_key :
  JSON_parse (jq " {'k': [1.50, true, null, 'x\u0041'], 'k': -2e3 } ")
  = Some (JObject [(js "k", JNumber (-2) 3)]).
Proof. vm_compute. reflexivity. Qed.

Example parse_array :
  JSON_parse (jq "[[], {}, 'a\nb', 10]")
  = Some (JArray [JArray []; JObject []; JString [97; 10; 98]; JNumber 1 1]).
Proof. vm_compute. reflexivity. Qed.

Example parse_truncated : JSON_parse (jq "{'a':") = None.
Proof. vm_compute. reflexivity. Qed.

Example parse_blank : JSON_parse (js "  ") = None.
Proof. vm_compute. reflexivity. Qed.

Example parse_trailing : JSON_parse (jq "{} x") = None.
Proof. vm_compute. reflexivity. Qed.

Example parse_leading_zero : JSON_parse (js "012") = None.
Proof. vm_compute. reflexivity. Qed.

End JsonFacts.

(** ** Splitting into lines *)

Module SplitFacts.

Lemma split_lf_nonempty (s : jsString) : split_lf s <> [].
Proof.
  induction s as [|c s IH]; simpl; [discriminate|].
  destruct (c =? LF); [discriminate|].
  destruct (split_lf s); discriminate.
Qed.

Lemma split_lf_no_lf (s : jsString) : LF ∉ s -> split_lf s = [s].
Proof.
  induction s as [|c s IH]; intros Hs; simpl; [reflexivity|].
  apply not_elem_of_cons in Hs as [Hc Hs].
  destruct (N.eqb_spec c LF) as [->|_]; [contradiction|].
  rewrite (IH Hs). reflexivity.
Qed.

Lemma split_lf_line (l s : jsString) :
  LF ∉ l -> split_lf (l ++ LF :: s) = l :: split_lf s.
Proof.
  induction l as [|c l IH]; intros Hl; simpl.
  - reflexivity.
  - apply not_elem_of_cons in Hl as [Hc Hl].
    destruct (N.eqb_spec c LF) as [->|_]; [contradiction|].
    rewrite (IH Hl). reflexivity.
Qed.

Lemma split_lf_join (lines : list jsString) (rest : jsString) :
  Forall (fun l => LF ∉ l) lines -> LF ∉ rest ->
  split_lf (join_lines lines rest) = lines ++ [rest].
Proof.
  unfold join_lines. intros Hlines Hrest.
  induction Hlines as [|l lines Hl _ IH]; simpl.
  - apply split_lf_no_lf, Hrest.
  - rewrite <- !app_assoc. simpl. rewrite (split_lf_line _ _ Hl), IH.
    reflexivity.
Qed.

(** The pieces of a text in two parts: the last piece of the first part
    goes on into the second. *)
Lemma split_lf_app (a b : jsString) :
  split_lf (a ++ b)
  = removelast (split_lf a) ++ split_lf (default [] (last (split_lf a)) ++ b).
Proof.
  induction a as [|c a IH]; simpl; [reflexivity|].
  destruct (c =? LF) eqn:Ec.
  - pose proof (split_lf_nonempty a) as Hne.
    destruct (split_lf a) as [|l ls] eqn:E; [contradiction|].
    rewrite IH. reflexivity.
  - rewrite IH. pose proof (split_lf_nonempty a) as Hne.
    destruct (split_lf a) as [|l [|l2 ls]] eqn:E; [contradiction| |].
    + simpl. rewrite Ec. reflexivity.
    + reflexivity.
Qed.

(** Every text is the join of its pieces: [split_lf] loses nothing. *)
Lemma join_split_lf (s : jsString) :
  join_lines (removelast (split_lf s)) (default [] (last (split_lf s))) = s.
Proof.
  unfold join_lines. induction s as [|c s IH]; simpl; [reflexivity|].
  pose proof (split_lf_nonempty s) as Hne.
  destruct (N.eqb_spec c LF) as [->|Hc].
  - destruct (split_lf s) as [|l ls] eqn:E; [contradiction|].
    simpl in *. rewrite IH. reflexivity.
  - destruct (split_lf s) as [|l [|l2 ls]] eqn:E; [contradiction| |].
    + simpl in *. rewrite IH. reflexivity.
    + simpl in *. rewrite <- app_assoc. simpl. rewrite <- IH.
      rewrite <- !app_assoc. reflexivity.
Qed.

Lemma split_lf_pieces (s : jsString) : Forall (fun l => LF ∉ l) (split_lf s).
Proof.
  induction s as [|c s IH]; simpl.
  - constructor; [apply not_elem_of_nil|constructor].
  - destruct (N.eqb_spec c LF) as [->|Hc].
    + constructor; [apply not_elem_of_nil|exact IH].
    + destruct (split_lf s) as [|l ls]; [repeat constructor|].
      * intros H. apply list_elem_of_singleton in H. congruence.
      * inversion IH; subst. constructor; [|assumption].
        apply not_elem_of_cons. split; [congruence|assumption].
Qed.

End SplitFacts.

(** ** The line decoder *)

Module LineDecoderFacts.

Import LineDecoder SplitFacts.

Section Facts.

Context {Msg : Type}.
Variable parse : jsString -> option Msg.
Variable onmessage_throws : Msg -> bool.

Abbreviation push := (push parse onmessage_throws).
Abbreviation push_all := (push_all parse onmessage_throws).
Abbreviation process_line := (process_line parse onmessage_throws).
Abbreviation events := (events parse onmessage_throws).

Lemma events_app (l1 l2 : list jsString) :
  events (l1 ++ l2) = events l1 ++ events l2.
Proof. unfold LineDecoder.events. rewrite map_app, concat_app. reflexivity. Qed.

Lemma events_cons (l : jsString) (ls : list jsString) :
  events (l :: ls) = process_line l ++ events ls.
Proof. reflexivity. Qed.

(** The decoder sees the text through its lines only. *)
Lemma push_lines (d : t) (chunk : jsString) (lines : list jsString)
    (rest : jsString) :
  buffer d ++ chunk = join_lines lines rest ->
  Forall (fun l => LF ∉ l) lines -> LF ∉ rest ->
  push d chunk = ({| buffer := rest |}, events lines).
Proof.
  intros Htext Hlines Hrest. unfold LineDecoder.push.
  rewrite Htext, (split_lf_join _ _ Hlines Hrest).
  rewrite last_snoc, removelast_last. reflexivity.
Qed.

(** Conversely, whatever is pushed, the text it completes is made of the
    lines the decoder went through and of the buffer it keeps. *)
Lemma push_inv (d : t) (chunk : jsString) :
  exists lines,
    Forall (fun l => LF ∉ l) lines
    /\ (LF ∉ buffer (fst (push d chunk)))
    /\ buffer d ++ chunk = join_lines lines (buffer (fst (push d chunk)))
    /\ snd (push d chunk) = events lines.
Proof.
  exists (removelast (split_lf (buffer d ++ chunk))).
  pose proof (split_lf_pieces (buffer d ++ chunk)) as Hp.
  pose proof (split_lf_nonempty (buffer d ++ chunk)) as Hne.
  pose proof (join_split_lf (buffer d ++ chunk)) as Hj.
  unfold LineDecoder.push. simpl.
  destruct (split_lf (buffer d ++ chunk)) as [|l ls] using rev_ind;
    [contradiction|].
  rewrite last_snoc, removelast_last in *. simpl in *.
  apply Forall_app in Hp as [Hls Hl]. inversion Hl; subst.
  repeat split; auto.
Qed.

(** Cutting a chunk in two changes nothing. *)
Lemma push_app (d : t) (c1 c2 : jsString) :
  push d (c1 ++ c2)
  = (fst (push (fst (push d c1)) c2),
     snd (push d c1) ++ snd (push (fst (push d c1)) c2)).
Proof.
  unfold LineDecoder.push. simpl.
  rewrite app_assoc, split_lf_app.
  pose proof (split_lf_nonempty
    (default [] (last (split_lf (buffer d ++ c1))) ++ c2)) as Hne.
  destruct (split_lf (default [] (last (split_lf (buffer d ++ c1))) ++ c2))
    as [|l ls] using rev_ind; [contradiction|].
  rewrite app_assoc, !last_snoc, !removelast_last.
  rewrite events_app. reflexivity.
Qed.

Lemma push_nil (d : t) : LF ∉ buffer d -> push d [] = (d, []).
Proof.
  intros Hd. unfold LineDecoder.push. rewrite app_nil_r, (split_lf_no_lf _ Hd).
  destruct d. reflexivity.
Qed.

Lemma push_buffer_no_lf (d : t) (chunk : jsString) :
  LF ∉ buffer (fst (push d chunk)).
Proof. destruct (push_inv d chunk) as (lines & _ & H & _). exact H. Qed.

(** Pushing chunk after chunk is pushing their concatenation at once. *)
Lemma push_all_concat (d : t) (chunks : list jsString) :
  LF ∉ buffer d -> push_all d chunks = push d (concat chunks).
Proof.
  revert d. induction chunks as [|c chunks IH]; intros d Hd.
  - symmetry. apply push_nil, Hd.
  - change (concat (c :: chunks)) with (c ++ concat chunks).
    rewrite push_app.
    change (push_all d (c :: chunks))
      with (let (d1, out1) := push d c in
            let (d2, out2) := push_all d1 chunks in (d2, out1 ++ out2)).
    pose proof (push_buffer_no_lf d c) as Hd1.
    destruct (push d c) as [d1 out1]. cbn [fst snd] in *.
    rewrite (IH d1 Hd1). destruct (push d1 (concat chunks)). reflexivity.
Qed.

Lemma push_all_lines (chunks lines : list jsString) (rest : jsString) :
  concat chunks = join_lines lines rest ->
  Forall (fun l => LF ∉ l) lines -> LF ∉ rest ->
  push_all new chunks = ({| buffer := rest |}, events lines).
Proof.
  intros Htext Hlines Hrest.
  rewrite push_all_concat by apply not_elem_of_nil.
  apply push_lines; assumption.
Qed.

Lemma messages_app (e1 e2 : list (event Msg)) :
  messages (e1 ++ e2) = messages e1 ++ messages e2.
Proof.
  induction e1 as [|[m|l] e1 IH]; simpl; [reflexivity| |]; rewrite IH;
    reflexivity.
Qed.

Lemma reported_app (e1 e2 : list (event Msg)) :
  reported (e1 ++ e2) = reported e1 ++ reported e2.
Proof.
  induction e1 as [|[m|l] e1 IH]; simpl; [reflexivity| |]; rewrite IH;
    reflexivity.
Qed.

(** A line of white space only trims to the empty string. *)
Lemma trim_start_white (s : jsString) :
  forallb is_white_space s = true -> trim_start s = [].
Proof.
  induction s as [|c s IH]; simpl; [reflexivity|].
  intros H. apply andb_prop in H as [Hc Hs]. rewrite Hc. auto.
Qed.

Lemma trim_white (s : jsString) :
  forallb is_white_space s = true -> trim s = [].
Proof. intros H. unfold trim. rewrite (trim_start_white _ H). reflexivity. Qed.

Lemma process_line_parsed (line : jsString) (m : Msg) :
  is_empty (trim line) = false -> parse line = Some m ->
  messages (process_line line) = [m].
Proof.
  intros Hb Hp. unfold LineDecoder.process_line. rewrite Hb, Hp.
  destruct (onmessage_throws m); reflexivity.
Qed.

Lemma process_line_malformed (line : jsString) :
  is_empty (trim line) = false -> parse line = None ->
  process_line line = [ConsoleError line].
Proof.
  intros Hb Hp. unfold LineDecoder.process_line. rewrite Hb, Hp. reflexivity.
Qed.

Lemma process_line_blank (line : jsString) :
  forallb is_white_space line = true -> process_line line = [].
Proof.
  intros Hw. unfold LineDecoder.process_line. rewrite (trim_white _ Hw).
  reflexivity.
Qed.

End Facts.

(** C4. Pushing [{"a":1}\n{"a":] and then [2}\n] hands exactly two
    messages to [onmessage], [{a:1}] and then [{a:2}]: the first push
    emits the first and keeps [{"a":] in the buffer, the second completes
    it. In general the text after the last line feed of what has been
    received stays in the buffer, the lines before it are gone through
    once, and cutting a chunk in two anywhere changes neither the events
    nor the buffer. *)
Theorem split_message_parsed_once :
  (forall throws : json -> bool,
     let first := jq "{'a':1}" ++ [LF] ++ jq "{'a':" in
     let second := jq "2}" ++ [LF] in
     let after_first := push JSON_parse throws new first in
     let after_second := push JSON_parse throws (fst after_first) second in
     messages (snd after_first) = [JObject [(js "a", JNumber 1 0)]]
     /\ buffer (fst after_first) = jq "{'a':"
     /\ messages (snd after_second) = [JObject [(js "a", JNumber 2 0)]]
     /\ buffer (fst after_second) = []
     /\ messages (snd (push_all JSON_parse throws new [first; second]))
        = [JObject [(js "a", JNumber 1 0)]; JObject [(js "a", JNumber 2 0)]])
  /\ (forall (Msg : Type) (parse : jsString -> option Msg)
         (throws : Msg -> bool) (d : t) (chunk : jsString),
        exists lines,
          Forall (fun l => LF ∉ l) lines
          /\ (LF ∉ buffer (fst (push parse throws d chunk)))
          /\ buffer d ++ chunk
             = join_lines lines (buffer (fst (push parse throws d chunk)))
          /\ snd (push parse throws d chunk) = events parse throws lines)
  /\ (forall (Msg : Type) (parse : jsString -> option Msg)
         (throws : Msg -> bool) (d : t) (c1 c2 : jsString),
        push parse throws d (c1 ++ c2)
        = (fst (push parse throws (fst (push parse throws d c1)) c2),
           snd (push parse throws d c1)
           ++ snd (push parse throws (fst (push parse throws d c1)) c2))).
Proof.
  split; [|split].
  - intros throws. cbv zeta. vm_compute.
    destruct (throws _), (throws _); repeat split; reflexivity.
  - intros. apply push_inv.
  - intros. apply push_app.
Qed.

(** C5. A complete line that is not blank and that [JSON.parse] rejects
    is reported on the console and nothing else happens for it: the lines
    before and after it are gone through as if it were not there,
    whatever the chunks the text arrives in. One malformed line followed
    by one valid line gives the valid line's message only. *)
Theorem malformed_line_logged_and_skipped (Msg : Type)
    (parse : jsString -> option Msg) (throws : Msg -> bool)
    (chunks before : list jsString) (bad : jsString)
    (after : list jsString) (rest : jsString) :
  concat chunks = join_lines (before ++ bad :: after) rest ->
  Forall (fun l => LF ∉ l) (before ++ bad :: after) -> LF ∉ rest ->
  is_empty (trim bad) = false -> parse bad = None ->
  push_all parse throws new chunks
  = ({| buffer := rest |},
     events parse throws before ++ ConsoleError bad :: events parse throws after)
  /\ messages (snd (push_all parse throws new chunks))
     = messages (events parse throws before)
       ++ messages (events parse throws after)
  /\ (forall (good : jsString) (m : Msg),
        before = [] -> after = [good] ->
        is_empty (trim good) = false -> parse good = Some m ->
        messages (snd (push_all parse throws new chunks)) = [m]
        /\ hd_error (reported (snd (push_all parse throws new chunks)))
           = Some bad).
Proof.
  intros Htext Hlines Hrest Hblank Hbad.
  rewrite (push_all_lines _ _ _ _ _ Htext Hlines Hrest).
  rewrite events_app, events_cons, (process_line_malformed _ _ _ Hblank Hbad).
  split; [reflexivity|]. cbn [snd]. split.
  - rewrite messages_app. reflexivity.
  - intros good m -> -> Hgood Hm. cbn [app].
    rewrite events_cons. cbn [LineDecoder.events map concat app messages reported].
    rewrite app_nil_r. rewrite (process_line_parsed _ _ _ _ Hgood Hm).
    split; reflexivity.
Qed.

Lemma malformed_line_logged_and_skipped_witness :
  let chunks := [js "oo"; js "ps" ++ [LF] ++ jq "{'ok'"; jq ":true}" ++ [LF]] in
  let out := snd (push_all JSON_parse (fun _ => false) new chunks) in
  JSON_parse (js "oops") = None
  /\ messages out = [JObject [(js "ok", JBool true)]]
  /\ reported out = [js "oops"].
Proof.
  cbv zeta.
  destruct (malformed_line_logged_and_skipped json JSON_parse (fun _ => false)
              [js "oo"; js "ps" ++ [LF] ++ jq "{'ok'"; jq ":true}" ++ [LF]]
              [] (js "oops") [jq "{'ok':true}"] [])
    as (Hall & _ & Hgood).
  - vm_compute. reflexivity.
  - apply (bool_decide_unpack _). vm_compute. exact I.
  - apply not_elem_of_nil.
  - vm_compute. reflexivity.
  - vm_compute. reflexivity.
  - split; [vm_compute; reflexivity|]. split.
    + apply (Hgood (jq "{'ok':true}") (JObject [(js "ok", JBool true)]));
        vm_compute; reflexivity.
    + rewrite Hall. vm_compute. reflexivity.
Defined.

(** C9. A complete line that is empty or made of white space only gives
    no event at all, neither a message nor a console report, whatever
    the parser would have made of it: the lines before and after it are
    gone through as if it were not there. *)
Theorem blank_line_dropped (Msg : Type)
    (parse : jsString -> option Msg) (throws : Msg -> bool)
    (chunks before : list jsString) (blank : jsString)
    (after : list jsString) (rest : jsString) :
  concat chunks = join_lines (before ++ blank :: after) rest ->
  Forall (fun l => LF ∉ l) (before ++ blank :: after) -> LF ∉ rest ->
  forallb is_white_space blank = true ->
  process_line parse throws blank = []
  /\ push_all parse throws new chunks
     = ({| buffer := rest |},
        events parse throws before ++ events parse throws after).
Proof.
  intros Htext Hlines Hrest Hblank.
  rewrite (push_all_lines _ _ _ _ _ Htext Hlines Hrest).
  rewrite events_app, events_cons, (process_line_blank _ _ _ Hblank).
  split; reflexivity.
Qed.

Lemma blank_line_dropped_witness :
  let chunks := [jq "{'a':1}" ++ [LF] ++ [32; 9]; [13; LF; LF] ++ jq "{'a':2}" ++ [LF]] in
  forallb is_white_space [32; 9; 13] = true
  /\ push_all (fun _ => Some tt) (fun _ => false) new chunks
     = ({| buffer := [] |}, [OnMessage tt; OnMessage tt]).
Proof.
  cbv zeta. split; [reflexivity|].
  destruct (blank_line_dropped unit (fun _ => Some tt) (fun _ => false)
              [jq "{'a':1}" ++ [LF] ++ [32; 9]; [13; LF; LF] ++ jq "{'a':2}" ++ [LF]]
              [jq "{'a':1}"] [32; 9; 13] [[]; jq "{'a':2}"] [])
    as (_ & Hall).
  - vm_compute. reflexivity.
  - apply (bool_decide_unpack _). vm_compute. exact I.
  - apply not_elem_of_nil.
  - reflexivity.
  - rewrite Hall. vm_compute. reflexivity.
Defined.

End LineDecoderFacts.

(** ** The headers of the outbound connection *)

Module HeadersFacts.

Import Headers.

(** What the loop leaves under a key. *)
Lemma lookup_passthrough (keys : list jsString)
    (req : gmap jsString header_value) (acc : gmap jsString jsValue)
    (k : jsString) :
  passthrough keys req acc !! k
  = if decide (k ∈ keys) then
      match req !! k with
      | Some value => Some (pick value)
      | None => acc !! k
      end
    else acc !! k.
Proof.
  revert acc. induction keys as [|key keys IH]; intros acc; cbn [passthrough].
  - rewrite decide_False by apply not_elem_of_nil. reflexivity.
  - destruct (decide (k = key)) as [->|Hne].
    + rewrite (decide_True (P := key ∈ key :: keys)) by apply list_elem_of_here.
      destruct (req !! key) as [value|] eqn:E; rewrite IH.
      * rewrite lookup_insert_eq. destruct (decide (key ∈ keys)); reflexivity.
      * destruct (decide (key ∈ keys)); reflexivity.
    + assert (Hiff : k ∈ key :: keys <-> k ∈ keys).
      { rewrite elem_of_cons. tauto. }
      destruct (req !! key) as [value|] eqn:E; rewrite IH;
        try rewrite lookup_insert_ne by congruence;
        destruct (decide (k ∈ keys)) as [Hin|Hin];
        [ rewrite decide_True by tauto | rewrite decide_False by tauto
        | rewrite decide_True by tauto | rewrite decide_False by tauto ];
        reflexivity.
Qed.

Lemma lookup_outbound (st : style) (req : gmap jsString header_value)
    (k : jsString) :
  outbound_headers st req !! k
  = if decide (k ∈ allow_list st) then
      match req !! k with
      | Some value => Some (pick value)
      | None => None
      end
    else if decide (k = js "Accept") then Some (VString (accept st))
    else None.
Proof.
  unfold outbound_headers. rewrite lookup_passthrough.
  assert (Hacc : js "Accept" ∉ allow_list st).
  { destruct st; apply (bool_decide_unpack _); vm_compute; exact I. }
  destruct (decide (k ∈ allow_list st)) as [Hin|Hout].
  - destruct (req !! k); [reflexivity|].
    apply lookup_singleton_ne. intros <-. contradiction.
  - destruct (decide (k = js "Accept")) as [->|Hne].
    + apply lookup_singleton_eq.
    + apply lookup_singleton_ne. congruence.
Qed.

Lemma lower_case_not_Accept (k : jsString) :
  is_lower_case k = true -> k <> js "Accept".
Proof. intros H ->. vm_compute in H. discriminate. Qed.

(** C6. The headers of the outbound connection are a function of the
    allow-listed headers of the inbound request alone; no header of the
    request whose name is outside the allow-list of the style is among
    them; an allow-listed header that the request carries is among them
    with its value, and one it does not carry is not. *)
Theorem only_allow_listed_headers_cross (st : style)
    (req : gmap jsString header_value) :
  (forall req' : gmap jsString header_value,
     (forall k, k ∈ allow_list st -> req' !! k = req !! k) ->
     outbound_headers st req' = outbound_headers st req)
  /\ (forall k, is_lower_case k = true -> k ∉ allow_list st ->
        outbound_headers st req !! k = None)
  /\ (forall k v, outbound_headers st req !! k = Some v ->
        k ∉ allow_list st -> k = js "Accept" /\ v = VString (accept st))
  /\ (forall k v, k ∈ allow_list st -> req !! k = Some (HString v) ->
        outbound_headers st req !! k = Some (VString v))
  /\ (forall k, k ∈ allow_list st -> req !! k = None ->
        outbound_headers st req !! k = None).
Proof.
  repeat split.
  - intros req' Hsame. apply map_eq. intros k. rewrite !lookup_outbound.
    destruct (decide (k ∈ allow_list st)) as [Hin|Hout]; [|reflexivity].
    rewrite (Hsame k Hin). reflexivity.
  - intros k Hlow Hout. rewrite lookup_outbound.
    rewrite decide_False by assumption.
    rewrite decide_False by (apply lower_case_not_Accept, Hlow). reflexivity.
  - rewrite lookup_outbound in H. rewrite decide_False in H by assumption.
    destruct (decide (k = js "Accept")); congruence.
  - rewrite lookup_outbound in H. rewrite decide_False in H by assumption.
    destruct (decide (k = js "Accept")); congruence.
  - intros k v Hin Hreq. rewrite lookup_outbound, decide_True, Hreq by assumption.
    reflexivity.
  - intros k Hin Hreq. rewrite lookup_outbound, decide_True, Hreq by assumption.
    reflexivity.
Qed.

Lemma only_allow_listed_headers_cross_witness :
  outbound_headers Sse (delete (js "cookie") sample_request)
  = outbound_headers Sse sample_request
  /\ outbound_headers Sse sample_request !! js "cookie" = None
  /\ outbound_headers Sse sample_request !! js "last-event-id" = None
  /\ outbound_headers StreamableHttp sample_request !! js "cookie" = None
  /\ outbound_headers Sse sample_request !! js "authorization"
     = Some (VString (js "Bearer t0k3n"))
  /\ outbound_headers StreamableHttp sample_request !! js "mcp-session-id" = None.
Proof.
  destruct (only_allow_listed_headers_cross Sse sample_request)
    as (Hsame & Hout & _ & Hin & _).
  destruct (only_allow_listed_headers_cross StreamableHttp sample_request)
    as (_ & Hout' & _ & _ & Habsent).
  refine (conj _ (conj _ (conj _ (conj _ (conj _ _))))).
  - apply Hsame. intros k Hk. apply list_elem_of_singleton in Hk as ->.
    apply lookup_delete_ne. vm_compute. discriminate.
  - apply Hout; [reflexivity|]. apply (bool_decide_unpack _). vm_compute. exact I.
  - apply Hout; [reflexivity|]. apply (bool_decide_unpack _). vm_compute. exact I.
  - apply Hout'; [reflexivity|]. apply (bool_decide_unpack _). vm_compute. exact I.
  - apply Hin; [apply list_elem_of_here|]. reflexivity.
  - apply Habsent; [|reflexivity]. apply (bool_decide_unpack _). vm_compute. exact I.
Defined.

(** C10. When an allow-listed header of the request is an array whose
    last element is [v], the outbound headers hold [v] under that name
    and nothing of the earlier elements, on the sse build as on the
    streamable-http build. *)
Theorem array_header_last_value (st : style)
    (req : gmap jsString header_value) (k : jsString)
    (vs : list jsString) (v : jsString) :
  k ∈ allow_list st -> req !! k = Some (HArray (vs ++ [v])) ->
  outbound_headers st req !! k = Some (VString v).
Proof.
  intros Hin Hreq. rewrite lookup_outbound, decide_True, Hreq by assumption.
  simpl. rewrite last_snoc. reflexivity.
Qed.

Lemma array_header_last_value_witness :
  outbound_headers StreamableHttp sample_request !! js "last-event-id"
  = Some (VString (js "9"))
  /\ outbound_headers Sse
       (<[js "authorization" := HArray [js "Bearer a"; js "Bearer b"]]> ∅)
     !! js "authorization"
     = Some (VString (js "Bearer b")).
Proof.
  split.
  - apply (array_header_last_value StreamableHttp sample_request
             (js "last-event-id") [js "7"; js "8"] (js "9")).
    + apply (bool_decide_unpack _). vm_compute. exact I.
    + reflexivity.
  - apply (array_header_last_value Sse _ (js "authorization")
             [js "Bearer a"] (js "Bearer b")).
    + apply list_elem_of_here.
    + reflexivity.
Defined.

End HeadersFacts.

(** ** The environment of the spawned process *)

Module EnvFacts.

Import Env.

Lemma lookup_spread {V : Type} (base o : gmap jsString V) (k : jsString) :
  spread base o !! k
  = match o !! k with
    | Some v => Some v
    | None => base !! k
    end.
Proof.
  unfold spread. rewrite lookup_union.
  destruct (o !! k), (base !! k); reflexivity.
Qed.

(** C8. With [queryEnv] what the JSON text of the query parses to and
    [vars] what MCP_ENV_VARS parses to, the environment handed to the
    spawned process holds, under every key, the value of [queryEnv] if
    it has one, else that of the default environment if it has one, else
    that of [process.env]; and the default environment is
    [getDefaultEnvironment()] overwritten by [vars]. *)
Theorem caller_env_overrides_defaults
    (process_env getDefaultEnvironment : gmap jsString jsString)
    (query_env : option jsString) (vars queryEnv : gmap jsString json) :
  parse_if_truthy (process_env !! js "MCP_ENV_VARS") = Some vars ->
  parse_if_truthy query_env = Some queryEnv ->
  exists defaults env,
    defaultEnvironment process_env getDefaultEnvironment = Some defaults
    /\ stdio_env process_env defaults query_env = Some env
    /\ (forall k,
          defaults !! k
          = match vars !! k with
            | Some v => Some v
            | None => JString <$> getDefaultEnvironment !! k
            end)
    /\ (forall k,
          env !! k
          = match queryEnv !! k with
            | Some v => Some v
            | None =>
                match defaults !! k with
                | Some v => Some v
                | None => JString <$> process_env !! k
                end
            end).
Proof.
  intros Hvars Hquery.
  exists (spread (of_strings getDefaultEnvironment) vars).
  exists (spread (spread (of_strings process_env)
                    (spread (of_strings getDefaultEnvironment) vars)) queryEnv).
  unfold defaultEnvironment, stdio_env. rewrite Hvars, Hquery.
  split; [reflexivity|]. split; [reflexivity|]. split.
  - intros k. rewrite lookup_spread. unfold of_strings. rewrite lookup_fmap.
    reflexivity.
  - intros k. rewrite !lookup_spread. unfold of_strings. rewrite !lookup_fmap.
    reflexivity.
Qed.

Lemma caller_env_overrides_defaults_witness :
  exists defaults env,
    defaultEnvironment sample_process_env sample_default_env = Some defaults
    /\ stdio_env sample_process_env defaults
         (Some (jq "{'TOKEN':'from-query','PATH':'/opt/bin'}")) = Some env
    /\ env !! js "TOKEN" = Some (JString (js "from-query"))
    /\ env !! js "PATH" = Some (JString (js "/opt/bin"))
    /\ env !! js "HOME" = Some (JString (js "/srv"))
    /\ env !! js "LANG" = Some (JString (js "C")).
Proof.
  destruct (caller_env_overrides_defaults
              sample_process_env sample_default_env
              (Some (jq "{'TOKEN':'from-query','PATH':'/opt/bin'}"))
              (<[js "HOME" := JString (js "/srv")]>
                 (<[js "TOKEN" := JString (js "from-defaults")]> ∅))
              (<[js "TOKEN" := JString (js "from-query")]>
                 (<[js "PATH" := JString (js "/opt/bin")]> ∅)))
    as (defaults & env & Hd & He & Hdk & Hek).
  - vm_compute. reflexivity.
  - vm_compute. reflexivity.
  - exists defaults, env.
    refine (conj Hd (conj He (conj _ (conj _ (conj _ _))))).
    + rewrite Hek. reflexivity.
    + rewrite Hek. reflexivity.
    + rewrite Hek, Hdk. reflexivity.
    + rewrite Hek, Hdk. reflexivity.
Defined.

End EnvFacts.

(** ** The port allocator *)

Module PortFacts.

Import Port.

Local Open Scope Z_scope.

Section Probing.

Variable listen : Z -> listen_outcome.

Abbreviation in_use := (in_use listen).

Lemma in_use_shift (p : Z) (k : nat) :
  (forall i : nat, (i < S k)%nat -> in_use (p + Z.of_nat i)) ->
  in_use p /\ forall i : nat, (i < k)%nat -> in_use (p + 1 + Z.of_nat i).
Proof.
  intros H. split.
  - specialize (H O). rewrite Z.add_0_r in H. apply H. lia.
  - intros i Hi. specialize (H (S i)).
    replace (p + 1 + Z.of_nat i) with (p + Z.of_nat (S i)) by lia.
    apply H. lia.
Qed.

Lemma find_skips_used (p : Z) (k fuel : nat) :
  (forall i : nat, (i < k)%nat -> in_use (p + Z.of_nat i)) ->
  findAvailablePort listen (k + fuel) p
  = match findAvailablePort listen fuel (p + Z.of_nat k) with
    | Some (r, acts) => Some (r, probes p k ++ acts)
    | None => None
    end.
Proof.
  revert p. induction k as [|k IH]; intros p Hused.
  - simpl. rewrite Z.add_0_r.
    destruct (findAvailablePort listen fuel p) as [[r acts]|]; reflexivity.
  - apply in_use_shift in Hused as [Hp Hrest].
    cbn [Nat.add findAvailablePort]. rewrite Hp.
    rewrite decide_True by reflexivity. rewrite (IH _ Hrest).
    replace (p + 1 + Z.of_nat k) with (p + Z.of_nat (S k)) by lia.
    destruct (findAvailablePort listen fuel (p + Z.of_nat (S k)))
      as [[r acts]|]; reflexivity.
Qed.

Lemma probes_snoc (p : Z) (k : nat) :
  probes p (S k) = probes p k ++ [Listen (p + Z.of_nat k)].
Proof.
  revert p. induction k as [|k IH]; intros p.
  - simpl. rewrite Z.add_0_r. reflexivity.
  - change (probes p (S (S k))) with (Listen p :: probes (p + 1) (S k)).
    rewrite IH. change (probes p (S k)) with (Listen p :: probes (p + 1) k).
    replace (p + 1 + Z.of_nat k) with (p + Z.of_nat (S k)) by lia.
    reflexivity.
Qed.

End Probing.

(** C7. When the ports [p], ..., [p + k - 1] are in use, the allocator
    asks for [p], [p + 1], ..., [p + k] in this order and nothing else.
    If [p + k] can be bound, the promise resolves with [p + k], the
    smallest port from [p] on that can, after the probing server has been
    closed, and [startServer] listens on it. If binding [p + k] fails
    with another code than EADDRINUSE, the promise is rejected with that
    code and [startServer] exits with code 1. *)
Theorem port_probing (listen : Z -> listen_outcome) (p : Z) (k fuel : nat) :
  (forall i : nat, (i < k)%nat ->
     listen (p + Z.of_nat i) = ErrorEvent (js "EADDRINUSE")) ->
  (k < fuel)%nat ->
  (listen (p + Z.of_nat k) = Listening (p + Z.of_nat k) ->
   findAvailablePort listen fuel p
   = Some (Resolved (p + Z.of_nat k),
           probes p (S k) ++ [Close (p + Z.of_nat k)])
   /\ (forall q a, p <= q < p + Z.of_nat k -> listen q <> Listening a)
   /\ (forall app_listen_fails,
         startServer listen fuel p app_listen_fails
         = Some (if app_listen_fails (p + Z.of_nat k) then Exit 1
                 else Serving (p + Z.of_nat k))))
  /\ (forall code, code <> js "EADDRINUSE" ->
      listen (p + Z.of_nat k) = ErrorEvent code ->
      findAvailablePort listen fuel p = Some (Rejected code, probes p (S k))
      /\ (forall app_listen_fails,
            startServer listen fuel p app_listen_fails = Some (Exit 1))).
Proof.
  intros Hused Hfuel.
  replace fuel with (k + S (fuel - S k))%nat by lia.
  split.
  - intros Hfree.
    assert (Hfind : findAvailablePort listen (k + S (fuel - S k)) p
                    = Some (Resolved (p + Z.of_nat k),
                            probes p (S k) ++ [Close (p + Z.of_nat k)])).
    { rewrite (find_skips_used listen p k _ Hused). cbn [findAvailablePort].
      rewrite Hfree, probes_snoc, <- app_assoc. reflexivity. }
    split; [exact Hfind|]. split.
    + intros q a Hq Hl.
      specialize (Hused (Z.to_nat (q - p))).
      replace (p + Z.of_nat (Z.to_nat (q - p))) with q in Hused by lia.
      rewrite Hused in Hl by lia. discriminate.
    + intros fails. unfold startServer. rewrite Hfind.
      destruct (fails _); reflexivity.
  - intros code Hcode Hfail.
    assert (Hfind : findAvailablePort listen (k + S (fuel - S k)) p
                    = Some (Rejected code, probes p (S k))).
    { rewrite (find_skips_used listen p k _ Hused). cbn [findAvailablePort].
      rewrite Hfail, decide_False by assumption.
      rewrite probes_snoc. reflexivity. }
    split; [exact Hfind|].
    intros fails. unfold startServer. rewrite Hfind. reflexivity.
Qed.

Lemma port_probing_witness :
  findAvailablePort two_taken 3 6277
  = Some (Resolved 6279, [Listen 6277; Listen 6278; Listen 6279; Close 6279])
  /\ startServer two_taken 3 6277 (fun _ => false) = Some (Serving 6279)
  /\ findAvailablePort refused 2 6277
     = Some (Rejected (js "EACCES"), [Listen 6277; Listen 6278])
  /\ startServer refused 2 6277 (fun _ => false) = Some (Exit 1).
Proof.
  assert (Hfound := port_probing two_taken 6277 2 3).
  assert (Hrefused := port_probing refused 6277 1 2).
  destruct Hfound as [Hfound _].
  { intros [|[|i]] Hi; [reflexivity|reflexivity|lia]. }
  { lia. }
  destruct Hrefused as [_ Hrefused].
  { intros [|i] Hi; [reflexivity|lia]. }
  { lia. }
  destruct (Hfound eq_refl) as (Hport & _ & Hstart).
  destruct (Hrefused (js "EACCES")) as (Hrej & Hexit).
  { vm_compute. discriminate. }
  { reflexivity. }
  refine (conj Hport (conj (Hstart (fun _ => false)) (conj Hrej (Hexit _)))).
Defined.

End PortFacts.

(** ** The session registry *)

Module ProxyFacts.

Import Headers Proxy.

Lemma half_paired (st : state) :
  paired st <-> forall sessionId, half sessionId st = false.
Proof.
  unfold paired, half. split; intros H sid; specialize (H sid).
  - destruct (bool_decide_reflect (is_Some (webAppTransports st !! sid)));
      destruct (bool_decide_reflect (is_Some (backingServerTransports st !! sid)));
      simpl; tauto.
  - destruct (bool_decide_reflect (is_Some (webAppTransports st !! sid)));
      destruct (bool_decide_reflect (is_Some (backingServerTransports st !! sid)));
      simpl in H; try discriminate; tauto.
Qed.




Lemma lookup_unregister (st : state) (sid : jsString) :
  lookup sid (unregister sid st) = (None, None).
Proof. unfold lookup. simpl. rewrite !lookup_delete_eq. reflexivity. Qed.



(** When the remote server cannot be reached, [createTransport] throws
    what [connect] gives, whatever the state; when it can, the new
    client transport is the last of the store. *)
Lemma createTransport_rejected (w : world) (req : request) (sty : style)
    (e : error) (st : state) :
  query req !! js "transportType" = Some (style_name sty) ->
  connect w sty (query req !! js "url") (outbound_headers sty (headers req))
  = Some e ->
  createTransport w req st = (Throw e, st).
Proof.
  intros Hty Hc. unfold createTransport. rewrite Hty.
  destruct sty; cbn [style_name].
  - rewrite decide_True by reflexivity. unfold bind, fails. rewrite Hc.
    reflexivity.
  - rewrite decide_False by (vm_compute; discriminate).
    rewrite decide_True by reflexivity. unfold bind, fails. rewrite Hc.
    reflexivity.
Qed.

Lemma createTransport_accepted (w : world) (req : request) (sty : style)
    (st : state) :
  query req !! js "transportType" = Some (style_name sty) ->
  connect w sty (query req !! js "url") (outbound_headers sty (headers req))
  = None ->
  createTransport w req st
  = (Ok (length (store st)), with_store st (store st ++ [fresh_transport])).
Proof.
  intros Hty Hc. unfold createTransport. rewrite Hty.
  destruct sty; cbn [style_name].
  - rewrite decide_True by reflexivity. unfold bind, fails. rewrite Hc.
    reflexivity.
  - rewrite decide_False by (vm_compute; discriminate).
    rewrite decide_True by reflexivity. unfold bind, fails. rewrite Hc.
    reflexivity.
Qed.

Lemma createTransport_ok (w : world) (req : request) (st st1 : state) (b : tref) :
  createTransport w req st = (Ok b, st1) ->
  b = length (store st) /\ st1 = with_store st (store st ++ [fresh_transport]).
Proof.
  unfold createTransport.
  repeat case_decide; unfold bind, fails, throw, ret, new_transport;
    repeat case_match; intros; simplify_eq; auto.
Qed.

(** *** The store around a transport *)

Section At.
Variables (st : state) (t : tref) (l r : list transport) (o : transport).
Hypothesis Hstore : store st = l ++ o :: r.
Hypothesis Ht : t = length l.

Lemma lookup_at : store st !! t = Some o.
Proof. rewrite Hstore, Ht. apply list_lookup_middle. reflexivity. Qed.

Lemma insert_at (o' : transport) : <[t := o']> (store st) = l ++ o' :: r.
Proof.
  rewrite Hstore, Ht, insert_app_r_alt by lia.
  rewrite Nat.sub_diag. reflexivity.
Qed.

Lemma assign_onclose_at (c : closure) :
  assign_onclose t c st = with_store st (l ++ with_onclose o c :: r).
Proof. unfold assign_onclose. rewrite lookup_at, insert_at. reflexivity. Qed.

Lemma current_onclose_at : current_onclose t st = onclose o.
Proof. unfold current_onclose. rewrite lookup_at. reflexivity. Qed.

Lemma is_open_at : is_open t st = negb (closed o).
Proof. unfold is_open. rewrite lookup_at. reflexivity. Qed.

Lemma observe_at : observe t st = Some (closed o, close_calls o).
Proof. unfold observe. rewrite lookup_at. reflexivity. Qed.

Lemma close_at (fuel : nat) :
  close (S fuel) t st
  = if closed o then Some (with_store st (l ++ ended o true :: r))
    else run_onclose fuel (onclose o) (with_store st (l ++ ended o true :: r)).
Proof. cbn [close]. rewrite lookup_at, insert_at. reflexivity. Qed.

Lemma raise_onclose_at (fuel : nat) :
  raise_onclose fuel t st
  = if closed o then Some st
    else run_onclose fuel (onclose o) (with_store st (l ++ ended o false :: r)).
Proof. unfold raise_onclose. rewrite lookup_at, insert_at. reflexivity. Qed.
End At.


(** The two transports of a session being set up are the last two of
    the store. *)
Lemma first_of_two (st : state) (l : list transport) (o1 o2 : transport) :
  store st = l ++ [o1; o2] -> store st = l ++ o1 :: [o2].
Proof. auto. Qed.
Lemma second_of_two (st : state) (l : list transport) (o1 o2 : transport) :
  store st = l ++ [o1; o2] -> store st = (l ++ [o1]) ++ o2 :: [].
Proof. intros ->. rewrite <- app_assoc. reflexivity. Qed.
Lemma length_snoc1 (l : list transport) o : S (length l) = length (l ++ [o]).
Proof. rewrite length_app. simpl. lia. Qed.

Lemma mcpProxy_backing_first (st : state) (l : list transport) (ob oc : transport) :
  store st = l ++ [ob; oc] ->
  mcpProxy (S (length l)) (length l) st
  = (Ok tt, with_store st
       (l ++ [with_onclose ob (PumpClose (onclose ob) (S (length l)));
              with_onclose oc (PumpClose (onclose oc) (length l))])).
Proof.
  intros Hs. unfold mcpProxy.
  rewrite (current_onclose_at st _ _ _ _ (second_of_two _ _ _ _ Hs) (length_snoc1 l ob)).
  rewrite (assign_onclose_at st _ _ _ _ (second_of_two _ _ _ _ Hs) (length_snoc1 l ob)).
  set (st1 := with_store st _).
  assert (Hs1 : store st1 = l ++ ob :: [with_onclose oc (PumpClose (onclose oc) (length l))]).
  { subst st1. simpl. rewrite <- app_assoc. reflexivity. }
  rewrite (current_onclose_at st1 _ _ _ _ Hs1 eq_refl).
  rewrite (assign_onclose_at st1 _ _ _ _ Hs1 eq_refl).
  subst st1. reflexivity.
Qed.

Lemma mcpProxy_client_first (st : state) (l : list transport) (oc ob : transport) :
  store st = l ++ [oc; ob] ->
  mcpProxy (length l) (S (length l)) st
  = (Ok tt, with_store st
       (l ++ [with_onclose oc (PumpClose (onclose oc) (S (length l)));
              with_onclose ob (PumpClose (onclose ob) (length l))])).
Proof.
  intros Hs. unfold mcpProxy.
  rewrite (current_onclose_at st _ _ _ _ (first_of_two _ _ _ _ Hs) eq_refl).
  rewrite (assign_onclose_at st _ _ _ _ (first_of_two _ _ _ _ Hs) eq_refl).
  set (st1 := with_store st _).
  assert (Hs1 : store st1 = (l ++ [with_onclose oc (PumpClose (onclose oc) (S (length l)))]) ++ ob :: []).
  { subst st1. simpl. rewrite <- app_assoc. reflexivity. }
  assert (Hl : S (length l) = length (l ++ [with_onclose oc (PumpClose (onclose oc) (S (length l)))])).
  { apply length_snoc1. }
  rewrite (current_onclose_at st1 _ _ _ _ Hs1 Hl).
  rewrite (assign_onclose_at st1 _ _ _ _ Hs1 Hl).
  subst st1. simpl. rewrite <- app_assoc. reflexivity.
Qed.

(** *** Sessions that get established *)

Lemma onsessioninitialized_at (st : state) (l : list transport)
    (ob oc : transport) (sid : jsString) :
  store st = l ++ [ob; oc] ->
  onsessioninitialized (S (length l)) (length l) sid st
  = (Ok tt,
     {| webAppTransports := <[sid := S (length l)]> (webAppTransports st);
        backingServerTransports := <[sid := length l]> (backingServerTransports st);
        store := l ++ [with_onclose ob (PumpClose (onclose ob) (S (length l)));
                       with_onclose oc (Cleanup sid None)] |}).
Proof.
  intros Hs. unfold onsessioninitialized, bind, set_web, set_backing, set_onclose.
  match goal with |- context [mcpProxy _ _ ?s] => set (st2 := s) end.
  assert (Hs2 : store st2 = l ++ [ob; oc]) by exact Hs.
  rewrite (mcpProxy_backing_first st2 l ob oc Hs2).
  match goal with |- context [assign_onclose _ _ ?s] => set (st3 := s) end.
  assert (Hs3 : store st3
                = (l ++ [with_onclose ob (PumpClose (onclose ob) (S (length l)))])
                  ++ with_onclose oc (PumpClose (onclose oc) (length l)) :: []).
  { subst st3. cbn [store with_store]. rewrite <- app_assoc. reflexivity. }
  rewrite (assign_onclose_at st3 _ _ _ _ Hs3 (length_snoc1 _ _)).
  subst st3 st2. cbn. rewrite <- app_assoc. reflexivity.
Qed.

Lemma post_mcp_established (w : world) (io : sdk) (req : request)
    (st st1 : state) (b : tref) (sid : jsString) :
  mcp_session_id req = Falsy ->
  createTransport w req st = (Ok b, st1) ->
  client_start io = None ->
  handle_request io = Initialized sid ->
  post_mcp w io req st
  = (Ok Delegated,
     {| webAppTransports := <[sid := S (length (store st))]> (webAppTransports st);
        backingServerTransports := <[sid := length (store st)]> (backingServerTransports st);
        store := store st ++
                 [ with_onclose fresh_transport (PumpClose Nop (S (length (store st))));
                   with_onclose fresh_transport (Cleanup sid None) ] |}).
Proof.
  intros Hnew Hct Hstart Hinit.
  destruct (createTransport_ok _ _ _ _ _ Hct) as [-> ->].
  unfold post_mcp. rewrite Hnew.
  unfold try_catch, bind. rewrite Hct. unfold ret at 1.
  unfold new_transport, fails. rewrite Hstart, Hinit. unfold ret at 1.
  cbn [store with_store webAppTransports backingServerTransports].
  rewrite length_app. cbn [length]. rewrite Nat.add_1_r.
  erewrite (onsessioninitialized_at _ (store st) fresh_transport fresh_transport)
    by (cbn [store]; rewrite <- app_assoc; reflexivity).
  reflexivity.
Qed.

Lemma wire_client_first (st : state) (l : list transport) (oc ob : transport)
    (sid : jsString) (k : option tref) :
  store st = l ++ [oc; ob] ->
  (do set_backing sid (S (length l)) then
   do set_onclose (length l) (Cleanup sid k) then
   mcpProxy (length l) (S (length l))) st
  = (Ok tt,
     {| webAppTransports := webAppTransports st;
        backingServerTransports := <[sid := S (length l)]> (backingServerTransports st);
        store := l ++ [with_onclose oc (PumpClose (Cleanup sid k) (S (length l)));
                       with_onclose ob (PumpClose (onclose ob) (length l))] |}).
Proof.
  intros Hs. unfold bind, set_backing, set_onclose.
  match goal with |- context [assign_onclose _ _ ?s] => set (st1 := s) end.
  assert (Hs1 : store st1 = l ++ [oc; ob]) by exact Hs.
  rewrite (assign_onclose_at st1 _ _ _ _ (first_of_two _ _ _ _ Hs1) eq_refl).
  match goal with |- context [mcpProxy _ _ ?s] => set (st2 := s) end.
  assert (Hs2 : store st2 = l ++ [with_onclose oc (Cleanup sid k); ob]) by reflexivity.
  rewrite (mcpProxy_client_first st2 l _ _ Hs2).
  reflexivity.
Qed.

Lemma get_sse_established (w : world) (io : sdk) (req : request) (st : state) :
  (forall st1, createTransport w req st1
               = (Ok (length (store st1)),
                  with_store st1 (store st1 ++ [fresh_transport]))) ->
  client_start io = None ->
  get_sse w io req st
  = (Ok StreamOpened,
     {| webAppTransports :=
          <[new_session_id io := length (store st)]> (webAppTransports st);
        backingServerTransports :=
          <[new_session_id io := S (length (store st))]> (backingServerTransports st);
        store := store st ++
          [with_onclose fresh_transport
             (PumpClose (Cleanup (new_session_id io) None) (S (length (store st))));
           with_onclose fresh_transport (PumpClose Nop (length (store st)))] |}).
Proof.
  intros Hct Hstart. unfold get_sse.
  unfold try_catch. unfold bind at 1. unfold new_transport.
  unfold bind at 1. unfold set_web at 1. unfold bind at 1.
  rewrite Hct. cbn [store with_store webAppTransports backingServerTransports].
  rewrite length_app. cbn [length]. rewrite Nat.add_1_r.
  rewrite Hstart. cbn [fails].
  match goal with |- context [bind (set_backing ?s ?b) ?k ?st0] =>
    change (bind (set_backing s b) k st0)
      with ((let* u := (do set_backing s b then
                     do set_onclose (length (store st)) (Cleanup s None) then
                     mcpProxy (length (store st)) b) in ret StreamOpened) st0)
  end.
  unfold bind at 1.
  erewrite (wire_client_first _ (store st) fresh_transport fresh_transport)
    by (cbn [store]; rewrite <- app_assoc; reflexivity).
  reflexivity.
Qed.

Lemma get_stdio_established (w : world) (io : sdk) (req : request)
    (st : state) (env : gmap jsString json) :
  spawn_env w req = Some env ->
  (forall name,
     launch w (query req !! js "command") (query req !! js "args") env name
     = None) ->
  client_start io = None ->
  get_stdio w io req st
  = (Ok StreamOpened,
     {| webAppTransports :=
          <[new_session_id io := length (store st)]> (webAppTransports st);
        backingServerTransports :=
          <[new_session_id io := S (length (store st))]> (backingServerTransports st);
        store := store st ++
          [with_onclose fresh_transport
             (PumpClose (Cleanup (new_session_id io) (Some (S (length (store st)))))
                (S (length (store st))));
           with_onclose fresh_transport (PumpClose Nop (length (store st)))] |}).
Proof.
  intros Henv Hlaunch Hstart. unfold get_stdio.
  unfold try_catch. unfold bind at 1. unfold new_transport at 1.
  unfold bind at 1. unfold set_web at 1. rewrite Henv.
  unfold bind at 1. rewrite Hlaunch. cbn [fails ret].
  unfold bind at 1. unfold new_transport at 1.
  cbn [store with_store webAppTransports backingServerTransports].
  rewrite length_app. cbn [length]. rewrite Nat.add_1_r.
  rewrite Hstart. cbn [fails].
  match goal with |- context [bind (set_backing ?s ?b) ?k ?st0] =>
    change (bind (set_backing s b) k st0)
      with ((let* u := (do set_backing s b then
                     do set_onclose (length (store st)) (Cleanup s (Some b)) then
                     mcpProxy (length (store st)) b) in ret StreamOpened) st0)
  end.
  unfold bind at 1.
  erewrite (wire_client_first _ (store st) fresh_transport fresh_transport)
    by (cbn [store]; rewrite <- app_assoc; reflexivity).
  reflexivity.
Qed.

(** *** Closing an established session *)

Lemma mcp_client_close (st : state) (l : list transport) (oc ob : transport)
    (sid : jsString) (fuel : nat) :
  store st = l ++ [ob; oc] ->
  onclose oc = Cleanup sid None -> closed oc = false ->
  raise_onclose (S fuel) (S (length l)) st
  = Some (unregister sid (with_store st (l ++ [ob; ended oc false]))).
Proof.
  intros Hs Hoc Hopen.
  rewrite (raise_onclose_at st _ _ _ _ (second_of_two _ _ _ _ Hs) (length_snoc1 _ _)).
  rewrite Hopen, Hoc. rewrite <- app_assoc. reflexivity.
Qed.

Lemma mcp_backing_close (st : state) (l : list transport) (oc ob : transport)
    (sid : jsString) (fuel : nat) :
  store st = l ++ [ob; oc] ->
  onclose ob = PumpClose Nop (S (length l)) -> closed ob = false ->
  onclose oc = Cleanup sid None -> closed oc = false ->
  raise_onclose (4 + fuel) (length l) st
  = Some (unregister sid (with_store st (l ++ [ended ob false; ended oc true]))).
Proof.
  intros Hs Hob Hbopen Hoc Hcopen.
  rewrite (raise_onclose_at st _ _ _ _ (first_of_two _ _ _ _ Hs) eq_refl).
  rewrite Hbopen, Hob. cbn [Nat.add run_onclose].
  set (st1 := with_store st _).
  assert (Hs1 : store st1 = l ++ [ended ob false; oc]) by reflexivity.
  rewrite (is_open_at st1 _ _ _ _ (second_of_two _ _ _ _ Hs1) (length_snoc1 _ _)).
  rewrite Hcopen. cbn [negb].
  rewrite (close_at st1 _ _ _ _ (second_of_two _ _ _ _ Hs1) (length_snoc1 _ _)).
  rewrite Hcopen, Hoc. subst st1. cbn. rewrite <- app_assoc. reflexivity.
Qed.

Section ClientFirst.
Variables (st : state) (l : list transport) (oc ob : transport) (sid : jsString).
Hypothesis Hs : store st = l ++ [oc; ob].
Hypothesis Hob : onclose ob = PumpClose Nop (length l).
Hypothesis Hbopen : closed ob = false.
Hypothesis Hcopen : closed oc = false.

Lemma sse_client_close (fuel : nat) :
  onclose oc = PumpClose (Cleanup sid None) (S (length l)) ->
  raise_onclose (5 + fuel) (length l) st
  = Some (unregister sid (with_store st (l ++ [ended oc false; ended ob true]))).
Proof.
  intros Hoc.
  rewrite (raise_onclose_at st _ _ _ _ (first_of_two _ _ _ _ Hs) eq_refl).
  rewrite Hcopen, Hoc. cbn [Nat.add run_onclose].
  set (st1 := unregister sid _).
  assert (Hs1 : store st1 = l ++ [ended oc false; ob]) by reflexivity.
  rewrite (is_open_at st1 _ _ _ _ (second_of_two _ _ _ _ Hs1) (length_snoc1 _ _)).
  rewrite Hbopen. cbn [negb].
  rewrite (close_at st1 _ _ _ _ (second_of_two _ _ _ _ Hs1) (length_snoc1 _ _)).
  rewrite Hbopen, Hob. cbn [run_onclose].
  set (st2 := with_store st1 _).
  assert (Hs2 : store st2 = l ++ [ended oc false; ended ob true]).
  { subst st2. cbn [store with_store]. rewrite <- app_assoc. reflexivity. }
  rewrite (is_open_at st2 _ _ _ _ (first_of_two _ _ _ _ Hs2) eq_refl).
  subst st2 st1. cbn. rewrite <- app_assoc. reflexivity.
Qed.

Lemma sse_backing_close (fuel : nat) :
  onclose oc = PumpClose (Cleanup sid None) (S (length l)) ->
  raise_onclose (5 + fuel) (S (length l)) st
  = Some (unregister sid (with_store st (l ++ [ended oc true; ended ob false]))).
Proof.
  intros Hoc.
  rewrite (raise_onclose_at st _ _ _ _ (second_of_two _ _ _ _ Hs) (length_snoc1 _ _)).
  rewrite Hbopen, Hob. cbn [Nat.add run_onclose].
  set (st1 := with_store st _).
  assert (Hs1 : store st1 = l ++ [oc; ended ob false]).
  { subst st1. cbn [store with_store]. rewrite <- app_assoc. reflexivity. }
  rewrite (is_open_at st1 _ _ _ _ (first_of_two _ _ _ _ Hs1) eq_refl).
  rewrite Hcopen. cbn [negb].
  rewrite (close_at st1 _ _ _ _ (first_of_two _ _ _ _ Hs1) eq_refl).
  rewrite Hcopen, Hoc. cbn [run_onclose].
  set (st2 := unregister sid _).
  assert (Hs2 : store st2 = l ++ [ended oc true; ended ob false]) by reflexivity.
  rewrite (is_open_at st2 _ _ _ _ (second_of_two _ _ _ _ Hs2) (length_snoc1 _ _)).
  reflexivity.
Qed.

Lemma stdio_client_close (fuel : nat) :
  onclose oc = PumpClose (Cleanup sid (Some (S (length l)))) (S (length l)) ->
  raise_onclose (5 + fuel) (length l) st
  = Some (unregister sid (with_store st (l ++ [ended oc false; ended ob true]))).
Proof.
  intros Hoc.
  rewrite (raise_onclose_at st _ _ _ _ (first_of_two _ _ _ _ Hs) eq_refl).
  rewrite Hcopen, Hoc. cbn [Nat.add run_onclose].
  set (st1 := unregister sid _).
  assert (Hs1 : store st1 = l ++ [ended oc false; ob]) by reflexivity.
  rewrite (close_at st1 _ _ _ _ (second_of_two _ _ _ _ Hs1) (length_snoc1 _ _)).
  rewrite Hbopen, Hob. cbn [run_onclose].
  set (st2 := with_store st1 _).
  assert (Hs2 : store st2 = l ++ [ended oc false; ended ob true]).
  { subst st2. cbn [store with_store]. rewrite <- app_assoc. reflexivity. }
  rewrite (is_open_at st2 _ _ _ _ (first_of_two _ _ _ _ Hs2) eq_refl).
  cbn [ended closed negb].
  rewrite (is_open_at st2 _ _ _ _ (second_of_two _ _ _ _ Hs2) (length_snoc1 _ _)).
  subst st2 st1. cbn. rewrite <- app_assoc. reflexivity.
Qed.

Lemma stdio_backing_close (fuel : nat) :
  onclose oc = PumpClose (Cleanup sid (Some (S (length l)))) (S (length l)) ->
  raise_onclose (5 + fuel) (S (length l)) st
  = Some (unregister sid
            (with_store st (l ++ [ended oc true; ended (ended ob false) true]))).
Proof.
  intros Hoc.
  rewrite (raise_onclose_at st _ _ _ _ (second_of_two _ _ _ _ Hs) (length_snoc1 _ _)).
  rewrite Hbopen, Hob. cbn [Nat.add run_onclose].
  set (st1 := with_store st _).
  assert (Hs1 : store st1 = l ++ [oc; ended ob false]).
  { subst st1. cbn [store with_store]. rewrite <- app_assoc. reflexivity. }
  rewrite (is_open_at st1 _ _ _ _ (first_of_two _ _ _ _ Hs1) eq_refl).
  rewrite Hcopen. cbn [negb].
  rewrite (close_at st1 _ _ _ _ (first_of_two _ _ _ _ Hs1) eq_refl).
  rewrite Hcopen, Hoc. cbn [run_onclose].
  set (st2 := unregister sid _).
  assert (Hs2 : store st2 = l ++ [ended oc true; ended ob false]) by reflexivity.
  rewrite (close_at st2 _ _ _ _ (second_of_two _ _ _ _ Hs2) (length_snoc1 _ _)).
  cbn [ended closed].
  set (st3 := with_store st2 _).
  assert (Hs3 : store st3 = l ++ [ended oc true; ended (ended ob false) true]).
  { subst st3. cbn [store with_store]. rewrite <- app_assoc. reflexivity. }
  rewrite (is_open_at st3 _ _ _ _ (second_of_two _ _ _ _ Hs3) (length_snoc1 _ _)).
  subst st3 st2 st1. unfold unregister, with_store.
  cbn [store webAppTransports backingServerTransports].
  rewrite <- !app_assoc. reflexivity.
Qed.

End ClientFirst.


(** The environment the /stdio handler computes for a request, layer
    by layer, on a server that is running. *)
Lemma spawn_env_layers (w : world) (req : request)
    (queryEnv : gmap jsString json) :
  Env.parse_if_truthy (query req !! js "env") = Some queryEnv ->
  exists env,
    spawn_env w req = Some env
    /\ forall k,
         env !! k
         = match queryEnv !! k with
           | Some v => Some v
           | None =>
               match defaultEnvironment w !! k with
               | Some v => Some v
               | None => JString <$> process_env w !! k
               end
           end.
Proof.
  intros Hq. unfold spawn_env, Env.stdio_env. rewrite Hq.
  eexists. split; [reflexivity|]. intros k.
  rewrite !EnvFacts.lookup_spread. unfold Env.of_strings.
  rewrite lookup_fmap. reflexivity.
Qed.

(** *** Sessions that fail to be established *)

(** The streamable-http handler registers nothing when the backing
    transport cannot be built: on a 401 it answers 401, on anything else
    500, and the state is the one it started from. *)
Lemma post_mcp_rejected (w : world) (io : sdk) (req : request) (e : error)
    (st : state) :
  mcp_session_id req = Falsy ->
  createTransport w req st = (Throw e, st) ->
  post_mcp w io req st
  = (Ok (Status (if is_401 e then 401 else 500)), st).
Proof.
  intros Hnew Hthrow. unfold post_mcp. rewrite Hnew.
  unfold try_catch, bind. rewrite Hthrow.
  destruct (is_401 e); reflexivity.
Qed.

(** The sse handler has put the client transport into the first map by
    the time the backing transport fails to be built, and leaves it
    there: it answers 401 or nothing and returns. *)
Lemma get_sse_rejected (w : world) (io : sdk) (req : request) (e : error)
    (st : state) :
  (forall st1, createTransport w req st1 = (Throw e, st1)) ->
  get_sse w io req st
  = (Ok (if is_401 e then Status 401 else NoReply),
     {| webAppTransports :=
          <[new_session_id io := length (store st)]> (webAppTransports st);
        backingServerTransports := backingServerTransports st;
        store := store st ++ [fresh_transport] |}).
Proof.
  intros Hthrow. unfold get_sse, try_catch, bind, new_transport, set_web.
  rewrite Hthrow. destruct (is_401 e); reflexivity.
Qed.

(** So does the stdio handler when the command cannot be launched. *)
Lemma get_stdio_rejected (w : world) (io : sdk) (req : request) (e : error)
    (st : state) :
  (forall env name,
     launch w (query req !! js "command") (query req !! js "args") env name
     = Some e) ->
  get_stdio w io req st
  = (Ok ErrorNotification,
     {| webAppTransports :=
          <[new_session_id io := length (store st)]> (webAppTransports st);
        backingServerTransports := backingServerTransports st;
        store := store st ++ [fresh_transport] |}).
Proof.
  intros Hlaunch. unfold get_stdio, try_catch, bind, new_transport, set_web.
  destruct (spawn_env w req) as [env|]; [|reflexivity].
  rewrite Hlaunch. reflexivity.
Qed.

Lemma half_web_only (st : state) (sid : jsString) (t : tref) :
  webAppTransports st !! sid = Some t ->
  backingServerTransports st !! sid = None ->
  half sid st = true /\ ~ paired st.
Proof.
  intros Hw Hb. assert (Hh : half sid st = true).
  { unfold half. rewrite Hw, Hb. reflexivity. }
  split; [exact Hh|]. intros Hp.
  rewrite (proj1 (half_paired st) Hp sid) in Hh. discriminate.
Qed.


(** C1. The registry does not always hold a session wholly or not at
    all. The /sse handler puts the client transport into
    [webAppTransports] before the backing transport exists; whenever
    building it fails (a 401 from the remote server, an unknown transport
    type) the handler returns with the new session id in
    [webAppTransports] and not in [backingServerTransports]: a half
    session, in a registry that is no longer paired. *)
Theorem failed_establishment_leaves_half_session (w : world) (io : sdk)
    (req : request) (st : state) (e : error) :
  (forall st1, createTransport w req st1 = (Throw e, st1)) ->
  backingServerTransports st !! new_session_id io = None ->
  lookup (new_session_id io) (snd (get_sse w io req st))
  = (Some (length (store st)), None)
  /\ half (new_session_id io) (snd (get_sse w io req st)) = true
  /\ ~ paired (snd (get_sse w io req st)).
Proof.
  intros Hthrow Hfresh. rewrite (get_sse_rejected _ _ _ _ _ Hthrow).
  cbn [snd]. unfold lookup. cbn [webAppTransports backingServerTransports].
  rewrite lookup_insert_eq, Hfresh. split; [reflexivity|].
  apply (half_web_only _ _ (length (store st))).
  - cbn [webAppTransports]. apply lookup_insert_eq.
  - exact Hfresh.
Qed.

Lemma failed_establishment_leaves_half_session_witness :
  get_sse world_unauthorized sdk_s1 sse_request initial
  = (Ok (Status 401),
     {| webAppTransports := {[ js "s1" := 0%nat ]};
        backingServerTransports := ∅;
        store := [fresh_transport] |})
  /\ lookup (js "s1") (snd (get_sse world_unauthorized sdk_s1 sse_request initial))
     = (Some 0%nat, None)
  /\ half (js "s1") (snd (get_sse world_unauthorized sdk_s1 sse_request initial))
     = true
  /\ half (js "s1") (snd (get_sse world_ok sdk_s1 websocket_request initial))
     = true.
Proof.
  destruct (failed_establishment_leaves_half_session
              world_unauthorized sdk_s1 sse_request initial
              (SseError (Some 401%Z)))
    as (Hlookup & Hhalf & _).
  { intros st1. reflexivity. }
  { reflexivity. }
  destruct (failed_establishment_leaves_half_session
              world_ok sdk_s1 websocket_request initial
              (OtherError (js "Invalid transport type specified")))
    as (_ & Hhalf' & _).
  { intros st1. reflexivity. }
  { reflexivity. }
  refine (conj _ (conj Hlookup (conj Hhalf Hhalf'))).
  vm_compute. reflexivity.
Defined.

(** C2. When building the backing transport is rejected with a 401, both
    handlers answer 401 at once. The streamable-http handler leaves the
    state as it was. The sse handler leaves the session id of the attempt
    in [webAppTransports], bound to the client transport it had created,
    and [backingServerTransports] as it was. *)
Theorem unauthorized_sse_stays_registered (w : world) (io : sdk)
    (req : request) (st : state) (e : error) :
  (forall st1, createTransport w req st1 = (Throw e, st1)) ->
  is_401 e = true ->
  (mcp_session_id req = Falsy -> post_mcp w io req st = (Ok (Status 401), st))
  /\ fst (get_sse w io req st) = Ok (Status 401)
  /\ webAppTransports (snd (get_sse w io req st)) !! new_session_id io
     = Some (length (store st))
  /\ backingServerTransports (snd (get_sse w io req st))
     = backingServerTransports st.
Proof.
  intros Hthrow H401. split.
  - intros Hnew. rewrite (post_mcp_rejected _ _ _ e _ Hnew (Hthrow st)), H401.
    reflexivity.
  - rewrite (get_sse_rejected _ _ _ _ _ Hthrow), H401. cbn.
    rewrite lookup_insert_eq. auto.
Qed.

Lemma unauthorized_sse_stays_registered_witness :
  post_mcp world_unauthorized sdk_s1 http_request initial
  = (Ok (Status 401), initial)
  /\ fst (get_sse world_unauthorized sdk_s1 sse_request initial)
     = Ok (Status 401)
  /\ webAppTransports
       (snd (get_sse world_unauthorized sdk_s1 sse_request initial))
     !! js "s1" = Some 0%nat
  /\ fst (post_message sdk_s1
            {| headers := ∅; query := {[ js "sessionId" := js "s1" ]} |}
            (snd (get_sse world_unauthorized sdk_s1 sse_request initial)))
     = Ok Delegated.
Proof.
  destruct (unauthorized_sse_stays_registered
              world_unauthorized sdk_s1 http_request initial
              (SseError (Some 401%Z)))
    as (Hmcp & _).
  { intros st1. reflexivity. }
  { reflexivity. }
  destruct (unauthorized_sse_stays_registered
              world_unauthorized sdk_s1 sse_request initial
              (SseError (Some 401%Z)))
    as (_ & Hstatus & Hweb & _).
  { intros st1. reflexivity. }
  { reflexivity. }
  refine (conj (Hmcp eq_refl) (conj Hstatus (conj Hweb _))).
  vm_compute. reflexivity.
Defined.

(** C3. For a session opened over streamable-http, the function in
    [webAppTransport.onclose] is the one the handler assigns after the
    pump has been wired. When the client transport closes, both entries
    of the session are removed together, and nothing calls [close()] on
    the backing transport: it stays open, never asked to close. *)
Theorem streamable_client_close_leaves_backing_open (w : world) (io : sdk)
    (req : request) (st st1 : state) (b : tref) (sid : jsString)
    (fuel : nat) :
  mcp_session_id req = Falsy ->
  createTransport w req st = (Ok b, st1) ->
  client_start io = None ->
  handle_request io = Initialized sid ->
  lookup sid (snd (post_mcp w io req st)) = (Some (S b), Some b)
  /\ current_onclose (S b) (snd (post_mcp w io req st)) = Cleanup sid None
  /\ exists st',
       raise_onclose (S fuel) (S b) (snd (post_mcp w io req st)) = Some st'
       /\ lookup sid st' = (None, None)
       /\ observe (S b) st' = Some (true, 0%nat)
       /\ observe b st' = Some (false, 0%nat).
Proof.
  intros Hnew Hct Hstart Hinit.
  rewrite (post_mcp_established _ _ _ _ _ _ _ Hnew Hct Hstart Hinit).
  destruct (createTransport_ok _ _ _ _ _ Hct) as [-> _].
  cbn [snd].
  match goal with |- context [lookup sid ?s] => set (st2 := s) end.
  assert (Hs2 : store st2
                = store st ++
                  [with_onclose fresh_transport
                     (PumpClose Nop (S (length (store st))));
                   with_onclose fresh_transport (Cleanup sid None)])
    by reflexivity.
  split; [|split].
  - unfold lookup. subst st2. cbn [webAppTransports backingServerTransports].
    rewrite !lookup_insert_eq. reflexivity.
  - apply (current_onclose_at st2 _ _ _ _
             (second_of_two _ _ _ _ Hs2) (length_snoc1 _ _)).
  - eexists. split.
    + apply (mcp_client_close st2 _ _ _ sid fuel Hs2); reflexivity.
    + split; [apply lookup_unregister|]. split.
      * rewrite (observe_at _ _
                   (store st ++ [with_onclose fresh_transport
                                   (PumpClose Nop (S (length (store st))))])
                   []
                   (ended (with_onclose fresh_transport (Cleanup sid None))
                      false)).
        -- reflexivity.
        -- cbn [unregister store with_store]. rewrite <- app_assoc. reflexivity.
        -- apply length_snoc1.
      * rewrite (observe_at _ _ (store st)
                   [ended (with_onclose fresh_transport (Cleanup sid None))
                      false]
                   (with_onclose fresh_transport
                      (PumpClose Nop (S (length (store st)))))).
        -- reflexivity.
        -- reflexivity.
        -- reflexivity.
Qed.

Lemma streamable_client_close_leaves_backing_open_witness :
  lookup (js "s1") (snd (post_mcp world_ok sdk_s1 http_request initial))
  = (Some 1%nat, Some 0%nat)
  /\ exists st',
       raise_onclose 1 1%nat (snd (post_mcp world_ok sdk_s1 http_request initial))
       = Some st'
       /\ lookup (js "s1") st' = (None, None)
       /\ observe 1%nat st' = Some (true, 0%nat)
       /\ observe 0%nat st' = Some (false, 0%nat).
Proof.
  destruct (streamable_client_close_leaves_backing_open
              world_ok sdk_s1 http_request initial
              (with_store initial [fresh_transport]) 0%nat (js "s1") 0%nat)
    as (Hlookup & _ & Hclose); try reflexivity.
  exact (conj Hlookup Hclose).
Defined.

(** When the backing transport of a streamable-http session closes,
    the pump closes the client transport, whose function removes both
    entries. *)
Lemma streamable_backing_close (w : world) (io : sdk) (req : request)
    (st st1 : state) (b : tref) (sid : jsString) (fuel : nat) :
  mcp_session_id req = Falsy ->
  createTransport w req st = (Ok b, st1) ->
  client_start io = None ->
  handle_request io = Initialized sid ->
  exists st',
    raise_onclose (4 + fuel) b (snd (post_mcp w io req st)) = Some st'
    /\ lookup sid st' = (None, None)
    /\ observe (S b) st' = Some (true, 1%nat).
Proof.
  intros Hnew Hct Hstart Hinit.
  rewrite (post_mcp_established _ _ _ _ _ _ _ Hnew Hct Hstart Hinit).
  destruct (createTransport_ok _ _ _ _ _ Hct) as [-> _].
  cbn [snd]. eexists. split.
  - apply (mcp_backing_close _ (store st)
             (with_onclose fresh_transport (Cleanup sid None))
             (with_onclose fresh_transport
                (PumpClose Nop (S (length (store st)))))
             sid fuel); reflexivity.
  - split; [apply lookup_unregister|].
    rewrite (observe_at _ _
               (store st ++ [ended (with_onclose fresh_transport
                                      (PumpClose Nop (S (length (store st)))))
                               false])
               []
               (ended (with_onclose fresh_transport (Cleanup sid None)) true)).
    + reflexivity.
    + cbn [unregister store with_store]. rewrite <- app_assoc. reflexivity.
    + apply length_snoc1.
Qed.

(** For a session opened by /sse or /stdio the pump is wired after the
    handler's own function and runs it first: closing either side
    removes both entries and closes the other side. *)
Lemma sse_close_either_side (w : world) (io : sdk) (req : request)
    (st : state) (fuel : nat) :
  (forall st1, createTransport w req st1
               = (Ok (length (store st1)),
                  with_store st1 (store st1 ++ [fresh_transport]))) ->
  client_start io = None ->
  lookup (new_session_id io) (snd (get_sse w io req st))
  = (Some (length (store st)), Some (S (length (store st))))
  /\ (exists st',
        raise_onclose (5 + fuel) (length (store st)) (snd (get_sse w io req st))
        = Some st'
        /\ lookup (new_session_id io) st' = (None, None)
        /\ observe (S (length (store st))) st' = Some (true, 1%nat))
  /\ (exists st',
        raise_onclose (5 + fuel) (S (length (store st)))
          (snd (get_sse w io req st))
        = Some st'
        /\ lookup (new_session_id io) st' = (None, None)
        /\ observe (length (store st)) st' = Some (true, 1%nat)).
Proof.
  intros Hct Hstart. rewrite (get_sse_established _ _ _ _ Hct Hstart).
  cbn [snd]. split; [|split].
  - unfold lookup. cbn [webAppTransports backingServerTransports].
    rewrite !lookup_insert_eq. reflexivity.
  - eexists. split.
    + apply (sse_client_close _ (store st)
               (with_onclose fresh_transport
                  (PumpClose (Cleanup (new_session_id io) None)
                     (S (length (store st)))))
               (with_onclose fresh_transport
                  (PumpClose Nop (length (store st))))
               (new_session_id io)); reflexivity.
    + split; [apply lookup_unregister|].
      rewrite (observe_at _ _
                 (store st ++ [ended (with_onclose fresh_transport
                    (PumpClose (Cleanup (new_session_id io) None)
                       (S (length (store st))))) false])
                 []
                 (ended (with_onclose fresh_transport
                           (PumpClose Nop (length (store st)))) true)).
      * reflexivity.
      * cbn [unregister store with_store]. rewrite <- app_assoc. reflexivity.
      * apply length_snoc1.
  - eexists. split.
    + apply (sse_backing_close _ (store st)
               (with_onclose fresh_transport
                  (PumpClose (Cleanup (new_session_id io) None)
                     (S (length (store st)))))
               (with_onclose fresh_transport
                  (PumpClose Nop (length (store st))))
               (new_session_id io)); reflexivity.
    + split; [apply lookup_unregister|].
      rewrite (observe_at _ _ (store st)
                 [ended (with_onclose fresh_transport
                           (PumpClose Nop (length (store st)))) false]
                 (ended (with_onclose fresh_transport
                    (PumpClose (Cleanup (new_session_id io) None)
                       (S (length (store st))))) true));
        reflexivity.
Qed.

Lemma stdio_close_either_side (w : world) (io : sdk) (req : request)
    (st : state) (env : gmap jsString json) (fuel : nat) :
  spawn_env w req = Some env ->
  (forall name,
     launch w (query req !! js "command") (query req !! js "args") env name
     = None) ->
  client_start io = None ->
  lookup (new_session_id io) (snd (get_stdio w io req st))
  = (Some (length (store st)), Some (S (length (store st))))
  /\ (exists st',
        raise_onclose (5 + fuel) (length (store st))
          (snd (get_stdio w io req st))
        = Some st'
        /\ lookup (new_session_id io) st' = (None, None)
        /\ observe (S (length (store st))) st' = Some (true, 1%nat))
  /\ (exists st',
        raise_onclose (5 + fuel) (S (length (store st)))
          (snd (get_stdio w io req st))
        = Some st'
        /\ lookup (new_session_id io) st' = (None, None)
        /\ observe (length (store st)) st' = Some (true, 1%nat)).
Proof.
  intros Henv Hlaunch Hstart.
  rewrite (get_stdio_established _ _ _ _ _ Henv Hlaunch Hstart).
  cbn [snd]. split; [|split].
  - unfold lookup. cbn [webAppTransports backingServerTransports].
    rewrite !lookup_insert_eq. reflexivity.
  - eexists. split.
    + apply (stdio_client_close _ (store st)
               (with_onclose fresh_transport
                  (PumpClose (Cleanup (new_session_id io)
                                (Some (S (length (store st)))))
                     (S (length (store st)))))
               (with_onclose fresh_transport
                  (PumpClose Nop (length (store st))))
               (new_session_id io)); reflexivity.
    + split; [apply lookup_unregister|].
      rewrite (observe_at _ _
                 (store st ++ [ended (with_onclose fresh_transport
                    (PumpClose (Cleanup (new_session_id io)
                                  (Some (S (length (store st)))))
                       (S (length (store st))))) false])
                 []
                 (ended (with_onclose fresh_transport
                           (PumpClose Nop (length (store st)))) true)).
      * reflexivity.
      * cbn [unregister store with_store]. rewrite <- app_assoc. reflexivity.
      * apply length_snoc1.
  - eexists. split.
    + apply (stdio_backing_close _ (store st)
               (with_onclose fresh_transport
                  (PumpClose (Cleanup (new_session_id io)
                                (Some (S (length (store st)))))
                     (S (length (store st)))))
               (with_onclose fresh_transport
                  (PumpClose Nop (length (store st))))
               (new_session_id io)); reflexivity.
    + split; [apply lookup_unregister|].
      rewrite (observe_at _ _ (store st)
                 [ended (ended (with_onclose fresh_transport
                           (PumpClose Nop (length (store st)))) false) true]
                 (ended (with_onclose fresh_transport
                    (PumpClose (Cleanup (new_session_id io)
                                  (Some (S (length (store st)))))
                       (S (length (store st))))) true));
        reflexivity.
Qed.

End ProxyFacts.

(** ** The decoder over a whole stream *)

Module LineDecoderStream.

Import LineDecoder SplitFacts LineDecoderFacts.

Lemma messages_events {Msg : Type} (parse : jsString -> option Msg)
    (throws : Msg -> bool) (lines : list jsString) :
  messages (events parse throws lines)
  = omap (fun l => if is_empty (trim l) then None else parse l) lines.
Proof.
  induction lines as [|l lines IH]; [reflexivity|].
  rewrite events_cons, messages_app, IH. cbn [omap list_omap].
  unfold process_line. destruct (is_empty (trim l)); [reflexivity|].
  destruct (parse l) as [m|]; [|reflexivity].
  destruct (throws m); reflexivity.
Qed.

(** X1. The messages handed to [onmessage] over a whole stream are the
    values of the complete lines that are not blank and that parse, in
    the order of the lines, however the stream was cut into chunks. The
    text after the last line feed is kept and never handed over, even
    when it is a valid message: there is no flush. *)
Theorem messages_are_parsed_lines (Msg : Type)
    (parse : jsString -> option Msg) (throws : Msg -> bool)
    (chunks lines : list jsString) (rest : jsString) :
  concat chunks = join_lines lines rest ->
  Forall (fun l => LF ∉ l) lines -> LF ∉ rest ->
  messages (snd (push_all parse throws new chunks))
  = omap (fun l => if is_empty (trim l) then None else parse l) lines
  /\ buffer (fst (push_all parse throws new chunks)) = rest.
Proof.
  intros Htext Hlines Hrest.
  rewrite (push_all_lines _ _ _ _ _ Htext Hlines Hrest).
  split; [apply messages_events|reflexivity].
Qed.

Lemma messages_are_parsed_lines_witness :
  let chunks := [jq "{'id':1}" ++ [LF] ++ js "no"; js "pe" ++ [LF; LF] ++ jq "[2]";
                 [LF] ++ jq "{'id':3}"] in
  messages (snd (push_all JSON_parse (fun _ => false) new chunks))
  = [JObject [(js "id", JNumber 1 0)]; JArray [JNumber 2 0]]
  /\ buffer (fst (push_all JSON_parse (fun _ => false) new chunks))
     = jq "{'id':3}".
Proof.
  cbv zeta.
  destruct (messages_are_parsed_lines json JSON_parse (fun _ => false)
              [jq "{'id':1}" ++ [LF] ++ js "no"; js "pe" ++ [LF; LF] ++ jq "[2]";
               [LF] ++ jq "{'id':3}"]
              [jq "{'id':1}"; js "nope"; []; jq "[2]"] (jq "{'id':3}"))
    as (Hm & Hb).
  - vm_compute. reflexivity.
  - apply (bool_decide_unpack _). vm_compute. exact I.
  - apply (bool_decide_unpack _). vm_compute. exact I.
  - split; [|exact Hb]. rewrite Hm. vm_compute. reflexivity.
Defined.

End LineDecoderStream.

(** ** What a settled allocation tells *)

Module PortSound.

Import Port PortFacts.

Local Open Scope Z_scope.

(** X2. Whenever the promise of [findAvailablePort] settles, the ports from
    [startPort] up to the one that settled it were asked for in order,
    each once, all but the last were occupied, and the last one either
    was bound, then closed, and is the port resolved with, or failed
    with the code the promise is rejected with, which is not
    EADDRINUSE. No other port was touched. *)
Theorem settled_only_by_probing (listen : Z -> listen_outcome)
    (fuel : nat) (p : Z) (r : settled) (acts : list action) :
  findAvailablePort listen fuel p = Some (r, acts) ->
  exists k : nat,
    (k < fuel)%nat
    /\ (forall i : nat, (i < k)%nat ->
          listen (p + Z.of_nat i) = ErrorEvent (js "EADDRINUSE"))
    /\ match r with
       | Resolved a =>
           listen (p + Z.of_nat k) = Listening a
           /\ acts = probes p (S k) ++ [Close (p + Z.of_nat k)]
       | Rejected code =>
           listen (p + Z.of_nat k) = ErrorEvent code
           /\ code <> js "EADDRINUSE"
           /\ acts = probes p (S k)
       end.
Proof.
  revert p r acts. induction fuel as [|fuel IH]; intros p r acts H.
  - discriminate.
  - cbn [findAvailablePort] in H.
    destruct (listen p) as [a|code] eqn:El.
    + inversion H; subst. exists O. rewrite Z.add_0_r.
      split; [lia|]. split; [intros i Hi; lia|]. split; [exact El|reflexivity].
    + destruct (decide (code = js "EADDRINUSE")) as [->|Hne].
      * destruct (findAvailablePort listen fuel (p + 1)) as [[r' acts']|] eqn:Ef;
          [|discriminate].
        inversion H; subst.
        destruct (IH _ _ _ Ef) as (k & Hk & Hused & Hr).
        exists (S k). split; [lia|]. split.
        -- intros [|i] Hi; [rewrite Z.add_0_r; exact El|].
           replace (p + Z.of_nat (S i)) with (p + 1 + Z.of_nat i) by lia.
           apply Hused. lia.
        -- replace (p + Z.of_nat (S k)) with (p + 1 + Z.of_nat k) by lia.
           destruct r as [a|c].
           ++ destruct Hr as [Hl ->]. split; [exact Hl|reflexivity].
           ++ destruct Hr as (Hl & Hc & ->). repeat split; assumption.
      * inversion H; subst. exists O. rewrite Z.add_0_r.
        split; [lia|]. split; [intros i Hi; lia|]. repeat split; assumption.
Qed.

Lemma settled_only_by_probing_witness :
  exists k : nat,
    (k < 7)%nat
    /\ (forall i : nat, (i < k)%nat ->
          two_taken (6277 + Z.of_nat i) = ErrorEvent (js "EADDRINUSE"))
    /\ two_taken (6277 + Z.of_nat k) = Listening 6279
    /\ [Listen 6277; Listen 6278; Listen 6279; Close 6279]
       = probes 6277 (S k) ++ [Close (6277 + Z.of_nat k)].
Proof.
  destruct (settled_only_by_probing two_taken 7 6277 (Resolved 6279)
              [Listen 6277; Listen 6278; Listen 6279; Close 6279] eq_refl)
    as (k & Hk & Hused & Hl & Hacts).
  exists k. exact (conj Hk (conj Hused (conj Hl Hacts))).
Defined.

End PortSound.

(** ** The keys of the spawned environment *)

Module EnvDomain.

Import Env EnvFacts.

(** X3. A caller of /stdio can add variables and override values, never
    take a variable away: the environment of the spawned process holds
    every key of [process.env], of the default environment and of the
    query, and no other. Without a query environment, or with an empty
    one, it is the default environment over [process.env]. *)
Theorem spawned_env_keeps_every_key
    (process_env : gmap jsString jsString)
    (defaults queryEnv env : gmap jsString json)
    (query_env : option jsString) :
  parse_if_truthy query_env = Some queryEnv ->
  stdio_env process_env defaults query_env = Some env ->
  dom env = dom queryEnv ∪ dom defaults ∪ dom process_env
  /\ (queryEnv = ∅ -> env = spread (of_strings process_env) defaults)
  /\ (query_env = None \/ query_env = Some [] -> queryEnv = ∅).
Proof.
  intros Hq He. unfold stdio_env in He. rewrite Hq in He.
  injection He as <-. split; [|split].
  - unfold spread, of_strings. rewrite !dom_union_L, dom_fmap_L.
    rewrite (assoc_L (∪)). reflexivity.
  - intros ->. unfold spread at 1. apply (left_id_L ∅ (∪)).
  - intros [->| ->]; simpl in Hq; congruence.
Qed.

Lemma spawned_env_keeps_every_key_witness :
  exists env,
    stdio_env sample_process_env (of_strings sample_default_env)
      (Some (jq "{'LANG':null,'EXTRA':1}")) = Some env
    /\ dom env
       = dom (<[js "LANG" := JNull]> (<[js "EXTRA" := JNumber 1 0]> ∅)
                : gmap jsString json)
         ∪ dom (of_strings sample_default_env) ∪ dom sample_process_env
    /\ env !! js "LANG" = Some JNull.
Proof.
  eexists. split; [vm_compute; reflexivity|]. split.
  - apply (spawned_env_keeps_every_key sample_process_env
             (of_strings sample_default_env)
             (<[js "LANG" := JNull]> (<[js "EXTRA" := JNumber 1 0]> ∅))
             _ (Some (jq "{'LANG':null,'EXTRA':1}"))).
    + vm_compute. reflexivity.
    + vm_compute. reflexivity.
  - vm_compute. reflexivity.
Defined.

End EnvDomain.

(** ** The registry over a sequence of requests *)

Module ServeFacts.

Import Headers Proxy ProxyFacts Serve.

Lemma paired_same_maps (st st' : state) :
  webAppTransports st' = webAppTransports st ->
  backingServerTransports st' = backingServerTransports st ->
  paired st -> paired st'.
Proof. intros Hw Hb Hp k. rewrite Hw, Hb. apply Hp. Qed.












(** *** A streamable-http session from handshake to close *)

(** X5. Once the handshake of a new streamable-http session has assigned it
    an id, POST /mcp and GET /mcp carrying that id are handed to the
    session's transport and leave the state alone; once the client
    transport has closed, the same requests are answered 404. *)
Theorem streamable_session_routing (w : world) (io io' : sdk)
    (req req' : request) (st st1 : state) (b : tref) (sid : jsString)
    (fuel : nat) :
  mcp_session_id req = Falsy ->
  createTransport w req st = (Ok b, st1) ->
  client_start io = None ->
  handle_request io = Initialized sid ->
  headers req' !! js "mcp-session-id" = Some (HString sid) ->
  sid <> [] ->
  handle_request io' = NotInitialized ->
  post_mcp w io' req' (snd (post_mcp w io req st))
  = (Ok Delegated, snd (post_mcp w io req st))
  /\ get_mcp io' req' (snd (post_mcp w io req st))
     = (Ok Delegated, snd (post_mcp w io req st))
  /\ exists st'',
       raise_onclose (S fuel) (S b) (snd (post_mcp w io req st)) = Some st''
       /\ post_mcp w io' req' st'' = (Ok (Status 404), st'')
       /\ get_mcp io' req' st'' = (Ok (Status 404), st'').
Proof.
  intros Hnew Hct Hstart Hinit Hhdr Hsid Hio'.
  assert (Hkey : mcp_session_id req' = Key sid).
  { unfold mcp_session_id. rewrite Hhdr. destruct sid; [contradiction|].
    reflexivity. }
  rewrite (post_mcp_established _ _ _ _ _ _ _ Hnew Hct Hstart Hinit).
  destruct (createTransport_ok _ _ _ _ _ Hct) as [-> _]. cbn [snd].
  match goal with |- context [get_mcp io' req' ?s] => set (st2 := s) end.
  assert (Hweb : webAppTransports st2 !! sid = Some (S (length (store st)))).
  { subst st2. cbn [webAppTransports]. apply lookup_insert_eq. }
  split; [|split].
  - unfold post_mcp. rewrite Hkey. unfold try_catch, bind, get_web.
    cbv beta.
    match goal with |- context [match ?x with Some _ => _ | None => _ end] =>
      replace x with (Some (S (length (store st)))) by (symmetry; exact Hweb)
    end.
    rewrite Hio'. reflexivity.
  - unfold get_mcp. rewrite Hhdr. unfold try_catch, bind, get_web.
    cbv beta.
    match goal with |- context [match ?x with Some _ => _ | None => _ end] =>
      replace x with (Some (S (length (store st)))) by (symmetry; exact Hweb)
    end.
    rewrite Hio'. reflexivity.
  - eexists. split.
    + apply (mcp_client_close st2 (store st)
               (with_onclose fresh_transport (Cleanup sid None))
               (with_onclose fresh_transport
                  (PumpClose Nop (S (length (store st)))))
               sid fuel); reflexivity.
    + split.
      * unfold post_mcp. rewrite Hkey. unfold try_catch, bind, get_web.
        cbv beta. cbn [unregister webAppTransports].
        rewrite lookup_delete_eq. reflexivity.
      * unfold get_mcp. rewrite Hhdr. unfold try_catch, bind, get_web.
        cbv beta. cbn [unregister webAppTransports].
        rewrite lookup_delete_eq. reflexivity.
Qed.

Lemma streamable_session_routing_witness :
  let st := snd (post_mcp world_ok sdk_s1 http_request initial) in
  post_mcp world_ok sdk_s2 request_s1 st = (Ok Delegated, st)
  /\ get_mcp sdk_s2 request_s1 st = (Ok Delegated, st)
  /\ exists st'',
       raise_onclose 1 1%nat st = Some st''
       /\ post_mcp world_ok sdk_s2 request_s1 st'' = (Ok (Status 404), st'')
       /\ get_mcp sdk_s2 request_s1 st'' = (Ok (Status 404), st'').
Proof.
  cbv zeta.
  apply (streamable_session_routing world_ok sdk_s1 sdk_s2 http_request
           request_s1 initial (with_store initial [fresh_transport])
           0%nat (js "s1") 0%nat); try reflexivity.
  vm_compute. discriminate.
Defined.

(** *** Failures while a session is being set up *)

Lemma createTransport_unknown_type (w : world) (req : request) (st : state) :
  query req !! js "transportType" <> Some (js "sse") ->
  query req !! js "transportType" <> Some (js "streamable-http") ->
  createTransport w req st
  = (Throw (OtherError (js "Invalid transport type specified")), st).
Proof.
  intros H1 H2. unfold createTransport.
  rewrite !decide_False by assumption. reflexivity.
Qed.

(** X6. A POST /mcp that opens a session and whose backing transport cannot
    be built leaves the state as it was and answers 401 for an SseError
    with code 401, 500 for any other error; a transport type that is
    missing or is neither sse nor streamable-http is answered 500,
    whatever the world, and the remote server is not contacted. *)
Theorem post_mcp_failure_status (w : world) (io : sdk) (req : request)
    (st : state) :
  mcp_session_id req = Falsy ->
  (forall e, createTransport w req st = (Throw e, st) ->
     post_mcp w io req st
     = (Ok (Status (if is_401 e then 401 else 500)), st))
  /\ (query req !! js "transportType" <> Some (js "sse") ->
      query req !! js "transportType" <> Some (js "streamable-http") ->
      forall w', post_mcp w' io req st = (Ok (Status 500), st)).
Proof.
  intros Hnew. split.
  - intros e He. apply post_mcp_rejected; assumption.
  - intros H1 H2 w'.
    apply (post_mcp_rejected w' io req
             (OtherError (js "Invalid transport type specified")) st Hnew).
    apply createTransport_unknown_type; assumption.
Qed.

Lemma post_mcp_failure_status_witness :
  post_mcp world_unauthorized sdk_s1 websocket_request initial
  = (Ok (Status 500), initial)
  /\ post_mcp world_unauthorized sdk_s1 bare_request initial
     = (Ok (Status 500), initial).
Proof.
  destruct (post_mcp_failure_status world_ok sdk_s1 websocket_request initial)
    as [_ H1]; [reflexivity|].
  destruct (post_mcp_failure_status world_ok sdk_s1 bare_request initial)
    as [_ H2]; [reflexivity|].
  split.
  - apply H1; vm_compute; discriminate.
  - apply H2; vm_compute; discriminate.
Defined.



End ServeFacts.

(** ** The logging endpoint *)

Module ApiLogFacts.

Import Proxy ApiLog LineDecoderFacts.



End ApiLogFacts.

(** ** JSON.stringify read back by JSON.parse *)

Module JsonTextFacts.

Import JS Json JsonText.

Lemma hex_value_digit (n : N) : n < 16 -> hex_value (hex_digit n) = Some n.
Proof.
  intros H. destruct n as [|p]; [reflexivity|].
  do 4 (destruct p as [p|p|]; try (exfalso; lia); try reflexivity).
Qed.

Lemma hex_recompose (c : N) :
  ((c / 4096 * 16 + (c / 256) mod 16) * 16 + (c / 16) mod 16) * 16 + c mod 16
  = c.
Proof.
  pose proof (N.div_mod c 16 ltac:(lia)) as H0.
  pose proof (N.div_mod (c / 16) 16 ltac:(lia)) as H1.
  pose proof (N.div_mod (c / 256) 16 ltac:(lia)) as H2.
  replace (c / 16 / 16) with (c / 256) in H1
    by (rewrite N.Div0.div_div; reflexivity).
  replace (c / 256 / 16) with (c / 4096) in H2
    by (rewrite N.Div0.div_div; reflexivity).
  lia.
Qed.

Lemma read_string_escape_u (c : N) (r acc : jsString) :
  c < 65536 -> read_string (escape_u c ++ r) acc = read_string r (c :: acc).
Proof.
  intros Hc. unfold escape_u. cbn [app read_string].
  change (92 =? 34) with false. change (92 =? 92) with true.
  change (117 =? 117) with true. cbv iota.
  rewrite !hex_value_digit.
  - rewrite hex_recompose. reflexivity.
  - apply N.mod_lt. lia.
  - apply N.mod_lt. lia.
  - apply N.mod_lt. lia.
  - apply N.Div0.div_lt_upper_bound. lia.
Qed.

Lemma read_string_literal (c : N) (r acc : jsString) :
  c <> 34 -> c <> 92 -> 32 <= c ->
  read_string (c :: r) acc = read_string r (c :: acc).
Proof.
  intros H1 H2 H3. cbn [read_string].
  destruct (N.eqb_spec c 34); [contradiction|].
  destruct (N.eqb_spec c 92); [contradiction|].
  destruct (N.ltb_spec c 32); [lia|]. reflexivity.
Qed.

Lemma read_string_quote_unit (c : N) (r acc : jsString) :
  c < 65536 ->
  read_string (quote_unit c ++ r) acc = read_string r (c :: acc).
Proof.
  intros Hc. unfold quote_unit.
  repeat match goal with
  | |- context [?a =? ?b] =>
      destruct (N.eqb_spec a b) as [->|?]; [reflexivity|]
  end.
  destruct (N.ltb_spec c 32).
  - apply read_string_escape_u, Hc.
  - apply read_string_literal; assumption.
Qed.

Lemma read_string_quote_units (n : nat) :
  forall (s rest acc : jsString),
    (length s <= n)%nat -> well_formed s ->
    read_string (quote_units s ++ 34 :: rest) acc = Some (rev acc ++ s, rest).
Proof.
  induction n as [|n IH]; intros s rest acc Hlen Hwf.
  - destruct s; [|simpl in Hlen; lia]. cbn. rewrite app_nil_r. reflexivity.
  - destruct s as [|c r].
    + cbn. rewrite app_nil_r. reflexivity.
    + inversion Hwf as [|? ? Hc Hr]; subst. cbn [length] in Hlen.
      assert (Hnext : forall acc',
                read_string (quote_units r ++ 34 :: rest) acc'
                = Some (rev acc' ++ r, rest)).
      { intros acc'. apply IH; [lia|assumption]. }
      cbn [quote_units].
      destruct (is_high_surrogate c) eqn:Hhigh.
      * destruct r as [|d r'].
        -- rewrite read_string_escape_u by assumption.
           reflexivity.
        -- destruct (is_low_surrogate d) eqn:Hlow.
           ++ inversion Hr as [|? ? Hd Hr']; subst.
              unfold is_high_surrogate in Hhigh. unfold is_low_surrogate in Hlow.
              apply andb_prop in Hhigh as [Hh1 Hh2].
              apply andb_prop in Hlow as [Hl1 Hl2].
              apply N.leb_le in Hh1, Hh2, Hl1, Hl2.
              cbn [app].
              rewrite read_string_literal by lia.
              rewrite read_string_literal by lia.
              rewrite IH by (simpl in Hlen; first [lia | assumption]).
              cbn [rev]. rewrite <- !app_assoc. reflexivity.
           ++ rewrite <- app_assoc, read_string_escape_u by assumption.
              rewrite Hnext. cbn [rev]. rewrite <- app_assoc. reflexivity.
      * destruct (is_low_surrogate c).
        -- rewrite <- app_assoc, read_string_escape_u by assumption.
           rewrite Hnext. cbn [rev]. rewrite <- app_assoc. reflexivity.
        -- rewrite <- app_assoc, read_string_quote_unit by assumption.
           rewrite Hnext. cbn [rev]. rewrite <- app_assoc. reflexivity.
Qed.

Lemma read_string_quote (s rest : jsString) :
  well_formed s ->
  read_string (quote_units s ++ 34 :: rest) [] = Some (s, rest).
Proof. intros H. apply (read_string_quote_units (length s)); [lia|exact H]. Qed.

Lemma member_text_app (kv : jsString * jsString) (tail : jsString) :
  member_text kv ++ tail
  = 34 :: quote_units (fst kv)
    ++ 34 :: 58 :: 34 :: quote_units (snd kv) ++ 34 :: tail.
Proof.
  unfold member_text, quote. cbn [app].
  rewrite <- !app_assoc. cbn [app]. rewrite <- !app_assoc. reflexivity.
Qed.

Lemma read_value_quote (fuel : nat) (v rest : jsString) :
  well_formed v ->
  read_value (S fuel) (34 :: quote_units v ++ 34 :: rest)
  = Some (JString v, rest).
Proof.
  intros Hv. cbn [read_value skip_ws]. change (is_json_ws 34) with false.
  cbv iota. change (34 =? 34) with true. cbv iota.
  rewrite (read_string_quote _ _ Hv). reflexivity.
Qed.

(** One member, followed by a comma or by the closing brace. *)
Lemma read_member (fuel : nat) (kv : jsString * jsString)
    (c3 : N) (r4 : jsString) (acc : list (jsString * json)) :
  wf_member kv -> c3 = 44 \/ c3 = 125 ->
  read_members (S (S fuel)) (member_text kv ++ c3 :: r4) acc
  = if c3 =? 44
    then read_members (S fuel) r4 (set_member (fst kv) (JString (snd kv)) acc)
    else Some (JObject (set_member (fst kv) (JString (snd kv)) acc), r4).
Proof.
  intros [Hk Hv] Hc3. rewrite member_text_app.
  cbn [read_members skip_ws]. change (is_json_ws 34) with false. cbv iota.
  change (34 =? 34) with true. cbv iota.
  rewrite (read_string_quote _ _ Hk).
  cbn [skip_ws]. change (is_json_ws 58) with false. cbv iota.
  change (58 =? 58) with true. cbv iota.
  rewrite (read_value_quote _ _ _ Hv).
  destruct Hc3 as [-> | ->]; reflexivity.
Qed.

Lemma read_members_text (ms : list (jsString * jsString)) :
  forall (fuel : nat) (rest : jsString) (acc : list (jsString * json)),
    ms <> [] -> Forall wf_member ms -> (length ms < fuel)%nat ->
    read_members fuel (members_text ms ++ 125 :: rest) acc
    = Some (JObject (fold_left add_member ms acc), rest).
Proof.
  induction ms as [|kv ms IH]; intros fuel rest acc Hne Hwf Hfuel;
    [contradiction|].
  inversion Hwf as [|? ? Hkv Hms]; subst.
  destruct fuel as [|[|fuel]]; [simpl in Hfuel; lia|simpl in Hfuel; lia|].
  destruct ms as [|kv' ms'].
  - cbn [members_text]. rewrite (read_member _ _ 125 _ _ Hkv) by auto.
    reflexivity.
  - change (members_text (kv :: kv' :: ms'))
      with (member_text kv ++ 44 :: members_text (kv' :: ms')).
    rewrite <- app_assoc. cbn [app].
    rewrite (read_member _ _ 44 _ _ Hkv) by auto.
    change (44 =? 44) with true. cbv iota.
    rewrite IH; [reflexivity|discriminate|assumption|simpl in *; lia].
Qed.

Lemma set_member_fresh (k : jsString) (v : json)
    (acc : list (jsString * json)) :
  k ∉ acc.*1 -> set_member k v acc = acc ++ [(k, v)].
Proof.
  induction acc as [|[k' v'] acc IH]; intros Hk; [reflexivity|].
  cbn [set_member]. cbn in Hk. apply not_elem_of_cons in Hk as [Hne Hk].
  rewrite decide_False by assumption. rewrite IH by assumption. reflexivity.
Qed.

Lemma fold_add_member (ms : list (jsString * jsString)) :
  forall acc : list (jsString * json),
    NoDup (acc.*1 ++ ms.*1) ->
    fold_left add_member ms acc = acc ++ map as_json ms.
Proof.
  induction ms as [|[k v] ms IH]; intros acc Hnd.
  - cbn. rewrite app_nil_r. reflexivity.
  - cbn [fold_left map]. unfold add_member at 2. cbn [fst snd].
    cbn [fmap list_fmap fst] in Hnd.
    assert (Hk : k ∉ acc.*1).
    { apply NoDup_app in Hnd as (_ & Hdis & _). intros Hin.
      apply (Hdis k Hin). apply list_elem_of_here. }
    rewrite set_member_fresh by assumption.
    rewrite IH.
    + rewrite <- app_assoc. reflexivity.
    + rewrite fmap_app. cbn [fmap list_fmap fst]. rewrite <- app_assoc.
      exact Hnd.
Qed.

Lemma members_text_head (kv : jsString * jsString)
    (ms : list (jsString * jsString)) :
  exists tail, members_text (kv :: ms) = 34 :: tail.
Proof.
  destruct ms as [|kv' ms']; cbn [members_text]; unfold member_text, quote;
    cbn [app]; eauto.
Qed.

Lemma length_members_text (ms : list (jsString * jsString)) :
  (length ms <= length (members_text ms))%nat.
Proof.
  assert (Hone : forall kv, (1 <= length (member_text kv))%nat).
  { intros kv. unfold member_text, quote. cbn [length app]. lia. }
  induction ms as [|kv ms IH]; [cbn; lia|].
  destruct ms as [|kv' ms'].
  - cbn [members_text length]. apply Hone.
  - change (members_text (kv :: kv' :: ms'))
      with (member_text kv ++ 44 :: members_text (kv' :: ms')).
    rewrite length_app. pose proof (Hone kv).
    change (length (kv :: kv' :: ms')) with (S (length (kv' :: ms'))).
    change (length (44 :: members_text (kv' :: ms')))
      with (S (length (members_text (kv' :: ms')))).
    lia.
Qed.

Lemma parse_stringify (ms : list (jsString * jsString)) :
  NoDup ms.*1 -> Forall wf_member ms ->
  JSON_parse (stringify ms) = Some (JObject (map as_json ms)).
Proof.
  intros Hnd Hwf. unfold JSON_parse, stringify.
  set (text := 123 :: members_text ms ++ [125]).
  assert (Hlen : (length ms < length text)%nat).
  { subst text. cbn [length]. rewrite length_app.
    pose proof (length_members_text ms). lia. }
  replace (2 * length text + 2)%nat with (S (S (2 * length text)))%nat by lia.
  subst text. cbn [read_value skip_ws]. change (is_json_ws 123) with false.
  cbv iota. change (123 =? 34) with false. change (123 =? 91) with false.
  change (123 =? 123) with true. cbv iota.
  destruct ms as [|kv ms'].
  - cbn. reflexivity.
  - destruct (members_text_head kv ms') as [tail Htail].
    rewrite Htail. cbn [app skip_ws]. change (is_json_ws 34) with false.
    cbv iota. change (34 =? 125) with false. cbv iota.
    change (34 :: tail ++ [125]) with ((34 :: tail) ++ 125 :: []).
    rewrite <- Htail.
    rewrite read_members_text; [|discriminate|assumption|].
    + rewrite fold_add_member by exact Hnd. reflexivity.
    + cbn [length] in *. lia.
Qed.

End JsonTextFacts.

(** ** The launcher (bin/cli.js) *)

Module LauncherFacts.

Import JS Json JsonText Launcher JsonTextFacts.

(** *** Assignments to envVars *)

Lemma assign_keys (k v : jsString) (o : list (jsString * jsString)) :
  (assign k v o).*1 = if decide (k ∈ o.*1) then o.*1 else o.*1 ++ [k].
Proof.
  induction o as [|[k' v'] o IH]; cbn [assign].
  - rewrite decide_False by apply not_elem_of_nil. reflexivity.
  - destruct (decide (k = k')) as [->|Hne].
    + cbn. rewrite decide_True by apply list_elem_of_here. reflexivity.
    + cbn [fmap list_fmap fst] in *. rewrite IH.
      destruct (decide (k ∈ o.*1)) as [Hin|Hin].
      * rewrite decide_True by (apply elem_of_cons; auto). reflexivity.
      * rewrite decide_False; [reflexivity|].
        rewrite elem_of_cons. tauto.
Qed.

Lemma assign_NoDup (k v : jsString) (o : list (jsString * jsString)) :
  NoDup o.*1 -> NoDup (assign k v o).*1.
Proof.
  intros Hnd. rewrite assign_keys. destruct (decide (k ∈ o.*1)); [exact Hnd|].
  apply NoDup_app. split; [exact Hnd|]. split.
  - intros x Hx Hx'. apply list_elem_of_singleton in Hx' as ->. contradiction.
  - apply NoDup_singleton.
Qed.

Lemma assign_lookup (k v : jsString) (o : list (jsString * jsString)) :
  (list_to_map (assign k v o) : gmap jsString jsString)
  = <[k := v]> (list_to_map o).
Proof.
  induction o as [|[k' v'] o IH]; cbn [assign]; [reflexivity|].
  destruct (decide (k = k')) as [->|Hne].
  - cbn [list_to_map foldr uncurry]. cbn. rewrite insert_insert_eq. reflexivity.
  - cbn. cbn in IH. rewrite IH. apply insert_insert_ne. congruence.
Qed.

Lemma set_property_NoDup (k v : jsString) (o : list (jsString * jsString)) :
  NoDup o.*1 -> NoDup (set_property k v o).*1.
Proof.
  intros H. unfold set_property. destruct (decide _); [exact H|].
  apply assign_NoDup, H.
Qed.

Lemma assign_wf (k v : jsString) (o : list (jsString * jsString)) :
  well_formed k -> well_formed v -> Forall wf_member o ->
  Forall wf_member (assign k v o).
Proof.
  intros Hk Hv Ho. induction Ho as [|[k' v'] o Hkv Ho IH]; cbn [assign].
  - repeat constructor; assumption.
  - destruct (decide (k = k')).
    + constructor; [split; assumption|assumption].
    + constructor; assumption.
Qed.

Lemma set_property_wf (k v : jsString) (o : list (jsString * jsString)) :
  well_formed k -> well_formed v -> Forall wf_member o ->
  Forall wf_member (set_property k v o).
Proof.
  intros. unfold set_property. destruct (decide _); [assumption|].
  apply assign_wf; assumption.
Qed.

(** *** The operand of -e *)

Lemma index_of_app (k v : jsString) :
  61 ∉ k -> index_of 61 (k ++ 61 :: v) = Some (length k).
Proof.
  induction k as [|c k IH]; intros Hk; [reflexivity|].
  apply not_elem_of_cons in Hk as [Hc Hk]. cbn [app index_of length].
  destruct (N.eqb_spec c 61); [congruence|]. rewrite (IH Hk). reflexivity.
Qed.

Lemma split_var_join (k v : jsString) :
  61 ∉ k -> split_var (k ++ 61 :: v) = (k, v).
Proof.
  intros Hk. unfold split_var. rewrite (index_of_app _ _ Hk).
  rewrite take_app_length.
  replace (S (length k)) with (length (k ++ [61]))
    by (rewrite length_app; simpl; lia).
  change (k ++ 61 :: v) with (k ++ [61] ++ v). rewrite app_assoc.
  rewrite drop_app_length. reflexivity.
Qed.

Lemma split_var_wf (envVar : jsString) :
  well_formed envVar ->
  well_formed (fst (split_var envVar)) /\ well_formed (snd (split_var envVar)).
Proof.
  intros H. unfold split_var, well_formed in *.
  destruct (index_of 61 envVar) as [n|]; cbn [fst snd].
  - split; [apply Forall_take, H|apply Forall_drop, H].
  - split; [exact H|constructor].
Qed.

(** *** One turn of the loop *)

Lemma loop_dash (rest : list jsString) (st : parsed) :
  parsingFlags st = true ->
  loop (js "--" :: rest) st = loop rest (end_of_flags st).
Proof.
  destruct st as [ev c m f]. cbn [parsingFlags]. intros ->. reflexivity.
Qed.

Lemma loop_var (envVar : jsString) (rest : list jsString) (st : parsed) :
  parsingFlags st = true ->
  loop (js "-e" :: envVar :: rest) st = loop rest (take_var envVar st).
Proof.
  destruct st as [ev c m f]. cbn [parsingFlags]. intros ->.
  cbn [loop parsingFlags andb].
  rewrite bool_decide_eq_false_2 by (vm_compute; discriminate).
  rewrite bool_decide_eq_true_2 by reflexivity.
  unfold take_var. destruct (split_var envVar). reflexivity.
Qed.

Lemma loop_positional (arg : jsString) (rest : list jsString) (st : parsed) :
  parsingFlags st = false \/ (arg <> js "--" /\ (arg <> js "-e" \/ rest = [])) ->
  loop (arg :: rest) st = loop rest (take_positional arg st).
Proof.
  intros H. cbn [loop]. unfold take_positional.
  destruct H as [H|[H1 H2]].
  - destruct st as [ev c m f]. cbn [parsingFlags] in *. subst f.
    cbn [andb]. destruct rest; reflexivity.
  - rewrite (bool_decide_eq_false_2 _ H1), andb_false_r.
    destruct H2 as [H2| ->]; [|reflexivity].
    rewrite (bool_decide_eq_false_2 _ H2), andb_false_r.
    destruct rest; reflexivity.
Qed.

(** Every turn is one of the three. *)
Lemma loop_step (arg : jsString) (rest : list jsString) (st : parsed) :
  loop (arg :: rest) st = loop rest (end_of_flags st)
  \/ (exists envVar rest',
        rest = envVar :: rest'
        /\ loop (arg :: rest) st = loop rest' (take_var envVar st))
  \/ loop (arg :: rest) st = loop rest (take_positional arg st).
Proof.
  destruct (parsingFlags st) eqn:Hf.
  - destruct (decide (arg = js "--")) as [->|Hd].
    + left. apply loop_dash, Hf.
    + destruct (decide (arg = js "-e")) as [->|He].
      * destruct rest as [|envVar rest'].
        -- right. right. apply loop_positional. right. auto.
        -- right. left. exists envVar, rest'. split; [reflexivity|].
           apply loop_var, Hf.
      * right. right. apply loop_positional. right. auto.
  - right. right. apply loop_positional. left. exact Hf.
Qed.

(** A property of the state that every turn keeps holds at the end. *)
Lemma loop_invariant (I : parsed -> Prop) (args : list jsString) :
  (forall st, I st -> I (end_of_flags st)) ->
  (forall st envVar, envVar ∈ args -> I st -> I (take_var envVar st)) ->
  (forall st arg, arg ∈ args -> I st -> I (take_positional arg st)) ->
  forall st, I st -> I (loop args st).
Proof.
  intros Hdash Hvar Hpos.
  assert (H : forall n (l : list jsString), (length l <= n)%nat ->
            (forall x, x ∈ l -> x ∈ args) ->
            forall st, I st -> I (loop l st)).
  { induction n as [|n IH]; intros l Hlen Hsub st Hst.
    - destruct l; [exact Hst|simpl in Hlen; lia].
    - destruct l as [|arg rest]; [exact Hst|]. cbn [length] in Hlen.
      destruct (loop_step arg rest st) as [->|[(envVar & rest' & -> & ->)| ->]].
      + apply IH; [lia| |auto]. intros x Hx. apply Hsub. right. exact Hx.
      + apply IH; [cbn [length] in Hlen; lia| |].
        * intros x Hx. apply Hsub. right. right. exact Hx.
        * apply Hvar; [|exact Hst]. apply Hsub. right. left.
      + apply IH; [lia| |].
        * intros x Hx. apply Hsub. right. exact Hx.
        * apply Hpos; [|exact Hst]. apply Hsub. left. }
  intros st Hst. apply (H (length args) args); auto.
Qed.

Lemma envVars_NoDup (args : list jsString) :
  NoDup (envVars (parse_args args)).*1.
Proof.
  apply (loop_invariant (fun st => NoDup (envVars st).*1) args).
  - auto.
  - intros st envVar _ H. apply set_property_NoDup, H.
  - intros st arg _ H. unfold take_positional. destruct (no_command _); exact H.
  - constructor.
Qed.

Lemma envVars_wf (args : list jsString) :
  Forall well_formed args -> Forall wf_member (envVars (parse_args args)).
Proof.
  intros Hargs.
  apply (loop_invariant (fun st => Forall wf_member (envVars st)) args).
  - auto.
  - intros st envVar Hin H. cbn [take_var envVars].
    rewrite Forall_forall in Hargs.
    destruct (split_var_wf envVar (Hargs _ Hin)).
    apply set_property_wf; assumption.
  - intros st arg _ H. unfold take_positional. destruct (no_command _); exact H.
  - constructor.
Qed.

(** *** Whole command lines *)

Lemma loop_flags (vars : list (jsString * jsString)) (tail : list jsString) :
  Forall (fun kv => 61 ∉ fst kv) vars ->
  forall st, parsingFlags st = true ->
    loop (flags vars ++ tail) st
    = loop tail
        {| envVars := assign_all vars (envVars st); command := command st;
           mcpServerArgs := mcpServerArgs st; parsingFlags := true |}.
Proof.
  intros Hvars. induction Hvars as [|[k v] vars Hk _ IH]; intros st Hf.
  - destruct st as [ev c m f]. cbn in Hf. subst f. reflexivity.
  - cbn [flags flat_map app fst snd]. rewrite loop_var by exact Hf.
    fold (flags vars). rewrite IH by exact Hf.
    unfold take_var. rewrite (split_var_join _ _ Hk). reflexivity.
Qed.

Lemma loop_plain (rest : list jsString) :
  forall st, Forall plain rest -> no_command (command st) = false ->
    loop rest st
    = {| envVars := envVars st; command := command st;
         mcpServerArgs := mcpServerArgs st ++ rest;
         parsingFlags := parsingFlags st |}.
Proof.
  induction rest as [|arg rest IH]; intros st Hp Hc.
  - destruct st. cbn. rewrite app_nil_r. reflexivity.
  - inversion Hp as [|? ? [He Hd] Hrest]; subst.
    rewrite loop_positional by (right; auto).
    unfold take_positional. rewrite Hc. rewrite IH by assumption.
    cbn. rewrite <- app_assoc. reflexivity.
Qed.

Lemma loop_verbatim (tail : list jsString) :
  forall st, parsingFlags st = false -> no_command (command st) = false ->
    loop tail st
    = {| envVars := envVars st; command := command st;
         mcpServerArgs := mcpServerArgs st ++ tail; parsingFlags := false |}.
Proof.
  induction tail as [|arg tail IH]; intros st Hf Hc.
  - destruct st as [ev c m f]. cbn in *. subst f. rewrite app_nil_r.
    reflexivity.
  - rewrite loop_positional by (left; exact Hf).
    unfold take_positional. rewrite Hc. rewrite IH by assumption.
    cbn. rewrite <- app_assoc. reflexivity.
Qed.

Lemma parse_usual (vars : list (jsString * jsString))
    (cmd : jsString) (args : list jsString) :
  Forall (fun kv => 61 ∉ fst kv) vars ->
  cmd <> [] -> plain cmd -> Forall plain args ->
  parse_args (flags vars ++ cmd :: args)
  = {| envVars := assign_all vars []; command := Some cmd;
       mcpServerArgs := args; parsingFlags := true |}.
Proof.
  intros Hvars Hcmd [Hce Hcd] Hargs. unfold parse_args.
  assert (Hc : no_command (Some cmd) = false)
    by (destruct cmd; [contradiction|reflexivity]).
  rewrite (loop_flags _ _ Hvars) by reflexivity.
  rewrite loop_positional by (right; auto).
  unfold take_positional. cbn [start command no_command].
  rewrite loop_plain; [|exact Hargs|exact Hc]. reflexivity.
Qed.

(** The variables as a map: the last assignment to a key wins. *)
Lemma assign_all_lookup (vars : list (jsString * jsString)) :
  forall (o : list (jsString * jsString)) (k : jsString),
    k <> js "__proto__" ->
    (list_to_map (assign_all vars o) : gmap jsString jsString) !! k
    = match (list_to_map (rev vars) : gmap jsString jsString) !! k with
      | Some v => Some v
      | None => (list_to_map o : gmap jsString jsString) !! k
      end.
Proof.
  induction vars as [|[k' v'] vars IH]; intros o k Hk; [reflexivity|].
  cbn [assign_all fold_left fst snd]. fold (assign_all vars).
  rewrite (IH _ k Hk). cbn [rev]. rewrite list_to_map_app, lookup_union.
  destruct (list_to_map (rev vars) !! k) as [v|] eqn:E.
  { destruct (list_to_map [(k', v')] !! k); reflexivity. }
  rewrite (left_id_L None (∪)).
  change (list_to_map [(k', v')] : gmap jsString jsString)
    with (<[k' := v']> (∅ : gmap jsString jsString)).
  unfold set_property.
  destruct (decide (k' = js "__proto__")) as [->|Hp].
  - rewrite lookup_insert_ne by congruence. rewrite lookup_empty. reflexivity.
  - rewrite assign_lookup.
    destruct (decide (k' = k)) as [->|Hne].
    + rewrite !lookup_insert_eq. reflexivity.
    + rewrite !lookup_insert_ne by assumption. rewrite lookup_empty.
      reflexivity.
Qed.

Lemma assign_all_proto (vars : list (jsString * jsString)) :
  forall o : list (jsString * jsString),
    js "__proto__" ∉ o.*1 -> js "__proto__" ∉ (assign_all vars o).*1.
Proof.
  induction vars as [|[k v] vars IH]; intros o Ho; [exact Ho|].
  cbn [assign_all fold_left fst snd]. apply IH.
  unfold set_property. destruct (decide (k = js "__proto__")); [exact Ho|].
  rewrite assign_keys. destruct (decide (k ∈ o.*1)); [exact Ho|].
  rewrite elem_of_app, list_elem_of_singleton. intros [H|H]; [auto|congruence].
Qed.


(** X9. The usual command line [-e K1=V1 ... -e Kn=Vn command arg...]
    (no [=] in a key, a non-empty command, no argument that is [-e] or
    [--]): the first positional argument is the command, the others are
    the server's arguments in their order, and envVars maps each key
    to the value of its last [-e], whatever follows the first [=] being
    the value. The key [__proto__] is never set: the assignment goes to
    the inherited setter. *)
Theorem usual_command_line (vars : list (jsString * jsString))
    (cmd : jsString) (args : list jsString) :
  Forall (fun kv => 61 ∉ fst kv) vars ->
  cmd <> [] -> plain cmd -> Forall plain args ->
  command (parse_args (flags vars ++ cmd :: args)) = Some cmd
  /\ mcpServerArgs (parse_args (flags vars ++ cmd :: args)) = args
  /\ (forall k, k <> js "__proto__" ->
        (list_to_map (envVars (parse_args (flags vars ++ cmd :: args)))
           : gmap jsString jsString) !! k
        = (list_to_map (rev vars) : gmap jsString jsString) !! k)
  /\ js "__proto__" ∉ (envVars (parse_args (flags vars ++ cmd :: args))).*1.
Proof.
  intros Hvars Hcmd Hplain Hargs.
  rewrite (parse_usual vars cmd args Hvars Hcmd Hplain Hargs).
  cbn [command mcpServerArgs envVars].
  refine (conj eq_refl (conj eq_refl (conj _ _))).
  - intros k Hk. rewrite (assign_all_lookup vars [] k Hk).
    destruct (list_to_map (rev vars) !! k); reflexivity.
  - apply assign_all_proto. cbn. apply not_elem_of_nil.
Qed.

Lemma usual_command_line_witness :
  command (parse_args (flags sample_vars ++ js "node" :: sample_args))
  = Some (js "node")
  /\ mcpServerArgs (parse_args (flags sample_vars ++ js "node" :: sample_args))
     = sample_args
  /\ (list_to_map (envVars (parse_args
         (flags sample_vars ++ js "node" :: sample_args)))
        : gmap jsString jsString) !! js "API_KEY"
     = Some (js "second").
Proof.
  destruct (usual_command_line sample_vars (js "node") sample_args)
    as (H1 & H2 & H3 & _).
  - apply (bool_decide_unpack _). vm_compute. exact I.
  - discriminate.
  - split; vm_compute; discriminate.
  - repeat constructor; vm_compute; discriminate.
  - refine (conj H1 (conj H2 _)). rewrite H3; [reflexivity|].
    vm_compute. discriminate.
Defined.

(** Appending arguments to a command line that does not end in [-e]
    does not change what the loop made of it. *)
Lemma loop_app (pre rest : list jsString) :
  last pre <> Some (js "-e") ->
  forall st, loop (pre ++ rest) st = loop rest (loop pre st).
Proof.
  assert (H : forall n (l : list jsString), (length l <= n)%nat ->
            last l <> Some (js "-e") ->
            forall st, loop (l ++ rest) st = loop rest (loop l st)).
  { induction n as [|n IH]; intros l Hlen Hlast st.
    - destruct l; [reflexivity|simpl in Hlen; lia].
    - destruct l as [|arg l']; [reflexivity|]. cbn [length] in Hlen.
      destruct (parsingFlags st) eqn:Hf.
      + destruct (decide (arg = js "--")) as [->|Hd].
        * cbn [app]. rewrite !loop_dash by exact Hf.
          apply IH; [lia|]. destruct l'; [discriminate|exact Hlast].
        * destruct (decide (arg = js "-e")) as [->|He].
          -- destruct l' as [|envVar l'']; [contradiction Hlast; reflexivity|].
             cbn [app]. rewrite !loop_var by exact Hf.
             apply IH; [cbn [length] in Hlen; lia|].
             destruct l'' as [|x l3]; [discriminate|exact Hlast].
          -- cbn [app]. rewrite !loop_positional by (right; auto).
             apply IH; [lia|]. destruct l'; [discriminate|exact Hlast].
      + cbn [app]. rewrite !loop_positional by (left; exact Hf).
        apply IH; [lia|]. destruct l'; [discriminate|exact Hlast]. }
  intros Hlast st. apply (H (length pre)); [lia|exact Hlast].
Qed.

(** X10. After the first [--] nothing is a flag any more: whatever the
    command line before it was (a command already found, the last word
    not an [-e] still waiting for its operand), every word after it goes
    to the server's arguments as it is, [-e] and [--] included, and the
    variables and the command stay as they were. *)
Theorem after_double_dash_verbatim (pre tail : list jsString) :
  last pre <> Some (js "-e") ->
  parsingFlags (parse_args pre) = true ->
  no_command (command (parse_args pre)) = false ->
  parse_args (pre ++ js "--" :: tail)
  = {| envVars := envVars (parse_args pre);
       command := command (parse_args pre);
       mcpServerArgs := mcpServerArgs (parse_args pre) ++ tail;
       parsingFlags := false |}.
Proof.
  intros Hlast Hf Hc. unfold parse_args in *.
  rewrite (loop_app _ _ Hlast). rewrite loop_dash by exact Hf.
  rewrite loop_verbatim; [reflexivity|reflexivity|exact Hc].
Qed.

Lemma after_double_dash_verbatim_witness :
  last (flags sample_vars ++ [js "node"]) <> Some (js "-e")
  /\ parse_args ((flags sample_vars ++ [js "node"])
                 ++ js "--" :: [js "-e"; js "A=b"; js "--"])
     = {| envVars := envVars (parse_args (flags sample_vars ++ [js "node"]));
          command := Some (js "node");
          mcpServerArgs := [js "-e"; js "A=b"; js "--"];
          parsingFlags := false |}.
Proof.
  assert (H : last (flags sample_vars ++ [js "node"]) <> Some (js "-e"))
    by (vm_compute; discriminate).
  split; [exact H|].
  exact (after_double_dash_verbatim (flags sample_vars ++ [js "node"])
           [js "-e"; js "A=b"; js "--"] H eq_refl eq_refl).
Defined.

Lemma stringify_not_empty (members : list (jsString * jsString)) :
  is_empty (stringify members) = false.
Proof. reflexivity. Qed.

(** X11. The variables given with [-e] reach the server: the launcher
    writes envVars with JSON.stringify into MCP_ENV_VARS of the
    environment it spawns the server with, and the server's
    defaultEnvironment (JSON.parse of that variable, spread over
    getDefaultEnvironment()) holds exactly these variables as strings
    over the defaults, for every command line and in whatever order
    the properties were written. *)
Theorem launcher_env_reaches_server (args : list jsString)
    (process_env getDefaultEnvironment : gmap jsString jsString)
    (members : list (jsString * jsString)) :
  Forall well_formed args ->
  members ≡ₚ envVars (parse_args args) ->
  Env.defaultEnvironment (server_env process_env members) getDefaultEnvironment
  = Some (Env.spread (Env.of_strings getDefaultEnvironment)
            (JString <$> list_to_map (envVars (parse_args args)))).
Proof.
  intros Hargs Hperm.
  assert (Hnd : NoDup members.*1).
  { rewrite Hperm. apply envVars_NoDup. }
  assert (Hwf : Forall wf_member members).
  { rewrite Hperm. apply envVars_wf, Hargs. }
  unfold Env.defaultEnvironment, server_env. rewrite lookup_insert_eq.
  unfold Env.parse_if_truthy. rewrite stringify_not_empty.
  rewrite (parse_stringify _ Hnd Hwf). cbn [fmap option_fmap option_map].
  cbn [Env.own_properties].
  replace (map as_json members) with (prod_map id JString <$> members).
  - rewrite list_to_map_fmap.
    rewrite (list_to_map_proper members (envVars (parse_args args)) Hnd Hperm).
    reflexivity.
  - apply map_ext. intros [k v]. reflexivity.
Qed.

Lemma launcher_env_reaches_server_witness :
  Forall well_formed (flags sample_vars ++ js "node" :: sample_args)
  /\ (Env.defaultEnvironment
        (server_env sample_process_env
           (rev (envVars (parse_args
                   (flags sample_vars ++ js "node" :: sample_args)))))
        {[ js "HOME" := js "/root" ]})
     = Some (Env.spread (Env.of_strings {[ js "HOME" := js "/root" ]})
               (JString <$> {[ js "API_KEY" := js "second";
                               js "URL" := js "http://h/?a=b";
                               js "DEBUG" := [] ]})).
Proof.
  assert (H : Forall well_formed
                (flags sample_vars ++ js "node" :: sample_args)).
  { unfold well_formed. apply (bool_decide_unpack _). vm_compute. exact I. }
  split; [exact H|].
  rewrite (launcher_env_reaches_server _ sample_process_env
             {[ js "HOME" := js "/root" ]} _ H
             (Permutation_sym (Permutation_rev _))).
  vm_compute. reflexivity.
Defined.

(** X12. The port of the server is the launcher's SERVER_PORT: the
    PORT the spawned server reads is SERVER_PORT when that is set and
    not empty, and 6277 otherwise (an empty SERVER_PORT is passed on
    and is falsy on the server's side); a PORT in the launcher's own
    environment never reaches the server. Every other variable of the
    launcher's environment is passed on unchanged. *)
Theorem server_port_is_SERVER_PORT
    (process_env : gmap jsString jsString)
    (members : list (jsString * jsString)) :
  PORT (server_env process_env members)
  = match process_env !! js "SERVER_PORT" with
    | Some p => if is_empty p then None else Some p
    | None => Some (js "6277")
    end
  /\ (forall k, k <> js "PORT" -> k <> js "MCP_ENV_VARS" ->
        server_env process_env members !! k = process_env !! k).
Proof.
  split.
  - unfold PORT, server_env, SERVER_PORT.
    rewrite lookup_insert_ne by (vm_compute; discriminate).
    rewrite lookup_insert_eq.
    destruct (process_env !! js "SERVER_PORT"); reflexivity.
  - intros k H1 H2. unfold server_env.
    rewrite !lookup_insert_ne by congruence. reflexivity.
Qed.

Lemma server_port_is_SERVER_PORT_witness :
  PORT (server_env sample_process_env []) = Some (js "7000")
  /\ server_env sample_process_env [] !! js "PATH" = Some (js "/bin").
Proof.
  destruct (server_port_is_SERVER_PORT sample_process_env []) as [H1 H2].
  split.
  - rewrite H1. vm_compute. reflexivity.
  - rewrite H2; [vm_compute; reflexivity| |]; vm_compute; discriminate.
Defined.

End LauncherFacts.
